(** * parcel-clients: the App resource client and the transport contract it uses

    A shallow embedding of [app.ts] (both revisions kept in the repository),
    of the [DownloadCollector] sink of the unit tests, and of the parts of the
    transport ([./http], [./dataset]) that the specification describes.

    JavaScript objects are finite maps from property names to values, living
    in a heap addressed by locations, so that [Object.assign(this, ...)] and
    reference identity mean what they mean in the program.  An [async]
    function is a state transformer over the heap and the log of requests
    sent so far, returning a resolved value or a rejection. *)

From Stdlib Require Import ZArith Ascii String DecimalString.
From Stdlib Require DecimalFacts DecimalPos.
From stdpp Require Import gmap strings list fin_maps.

Set Warnings "-register-all".
Local Open Scope string_scope.
Local Open Scope Z_scope.

(** ** JSON wire data and JavaScript values *)

(** What [JSON.parse] yields for a response body.  Numbers are the integers:
    the snapshots and filters of this client carry no others. *)
Inductive json : Type :=
  | JNull
  | JBool (b : bool)
  | JNum (n : Z)
  | JStr (s : string)
  | JArr (xs : list json)
  | JObj (m : gmap string json).

Inductive verb := GET | POST | PUT | DELETE.

Inductive content :=
  | CJson (j : json)       (* a JSON-encoded part *)
  | CBytes (b : string).   (* an opaque byte payload *)

Record Part := mkPart {
  part_name : string;
  part_type : string;
  part_content : content
}.

Inductive payload :=
  | NoBody
  | JsonBody (j : json)
  | Multipart (parts : list Part).

Record Request := mkRequest {
  method : verb;
  endpoint : string;
  query : list (string * string);
  body : payload
}.

(** A response: its status, its body as the chunks the transport delivers,
    and what [JSON.parse] makes of the body ([None] when it is not JSON). *)
Record Response := mkResponse {
  status : Z;
  chunks : list string;
  rjson : option json
}.

(** Modelled from the spec: [HttpClient] of [./http] is not among the
    sources.  The transport is an injected capability that performs requests
    against the gateway; all the client can observe of the gateway is its
    response to a request, given the requests that were sent before it. *)
Record HttpClient := mkHttpClient {
  gateway : list Request -> Request -> Response
}.

(** A value held by a property of a client-side object.  [VDate t] is a
    [Date] whose time value is [t] milliseconds since the epoch, [None] being
    the invalid date (time value NaN). *)
Inductive value : Type :=
  | VUndef
  | VJson (j : json)
  | VDate (t : option Z)
  | VClient (c : HttpClient).

Abbreviation obj := (gmap string value).
Abbreviation loc := nat.

(** The built-in [Date] parser and printer are taken as given. *)
Class JSDate := {
  Date_parse : string -> option Z;
  Date_toString : option Z -> string
}.

(** [pod.k]: reading a property of a parsed body, for the property names this
    client reads, none of which a string, an array or an object inherits.
    Reading a property of [null] throws; see [member] and [new_App]. *)
Definition prop (pod : json) (k : string) : value :=
  match pod with
  | JObj m => from_option VJson VUndef (m !! k)
  | _ => VUndef
  end.

(** The decimal digits of an integer, as JavaScript prints one below 10^21. *)
Definition string_of_Z (n : Z) : string := NilZero.string_of_int (Z.to_int n).

(** [String(j)], as a template literal applies it. *)
Fixpoint ToString_json (j : json) : string :=
  match j with
  | JNull => "null"
  | JBool true => "true"
  | JBool false => "false"
  | JNum n => string_of_Z n
  | JStr s => s
  | JArr xs =>
      String.concat ","
        (map (fun x => match x with JNull => "" | _ => ToString_json x end) xs)
  | JObj _ => "[object Object]"
  end.

Definition ToString `{JSDate} (v : value) : string :=
  match v with
  | VUndef => "undefined"
  | VJson j => ToString_json j
  | VDate t => Date_toString t
  | VClient _ => "[object Object]"
  end.

(** [new Date(v)]. *)
Definition new_Date `{JSDate} (v : value) : value :=
  VDate
    match v with
    | VUndef => None
    | VDate t => t
    | VJson (JStr s) => Date_parse s
    | VJson (JNum n) => if Z.abs n <=? 8640000000000000 then Some n else None
    | VJson JNull => Some 0
    | VJson (JBool b) => Some (if b then 1 else 0)
    | VJson j => Date_parse (ToString_json j)
    | VClient _ => Date_parse "[object Object]"
    end.

(** ** Asynchronous computations over the heap and the request log *)

Inductive error :=
  | RequestError (status : Z)
  | ContractViolation (status : Z)
  | SyntaxError
  | TypeError
  | UserError (message : string).

Inductive outcome (A : Type) :=
  | Resolved (a : A)
  | Rejected (e : error).
Arguments Resolved {A} a.
Arguments Rejected {A} e.

Record World := mkWorld {
  heap : list obj;
  sent : list Request
}.

Definition Async (A : Type) : Type := World -> outcome A * World.

Definition ret {A} (a : A) : Async A := fun w => (Resolved a, w).
Definition throw {A} (e : error) : Async A := fun w => (Rejected e, w).
Definition bind {A B} (m : Async A) (k : A -> Async B) : Async B :=
  fun w =>
    match m w with
    | (Resolved a, w') => k a w'
    | (Rejected e, w') => (Rejected e, w')
    end.

Declare Scope async_scope.
Delimit Scope async_scope with async.
Notation "x <- m ;; k" := (bind m (fun x => k))
  (at level 100, m at next level, right associativity) : async_scope.
Notation "m ;; k" := (bind m (fun _ => k))
  (at level 100, right associativity) : async_scope.
Local Open Scope async_scope.

Fixpoint mapM {A B} (f : A -> Async B) (xs : list A) : Async (list B) :=
  match xs with
  | [] => ret []
  | x :: xs' => y <- f x ;; ys <- mapM f xs' ;; ret (y :: ys)
  end.

(** [new C(...)]: a fresh object with the properties the constructor set. *)
Definition alloc (o : obj) : Async loc :=
  fun w => (Resolved (length (heap w)), mkWorld (heap w ++ [o]) (sent w)).

(** Reading the object at a location.  Locations come from [alloc] only, so
    the lookup succeeds in every run; the model rejects on a dangling one. *)
Definition load (l : loc) : Async obj :=
  fun w =>
    match heap w !! l with
    | Some o => (Resolved o, w)
    | None => (Rejected TypeError, w)
    end.

(** [Object.assign(target, source)]: every own property of the source is
    written to the target; properties only the target has stay. *)
Definition Object_assign (target source : loc) : Async unit :=
  src <- load source ;;
  tgt <- load target ;;
  fun w => (Resolved tt, mkWorld (<[target := src ∪ tgt]> (heap w)) (sent w)).

(** Calling a method of [this.client] throws unless it is a transport. *)
Definition as_client (v : value) : Async HttpClient :=
  match v with
  | VClient c => ret c
  | _ => throw TypeError
  end.

(** [this.k]: a property the object does not have reads undefined. *)
Definition read (o : obj) (k : string) : value := default VUndef (o !! k).

(** ** The transport *)

(** Modelled from the spec: the filter types of [./model] and [./dataset]
    are not among the sources.  A filter value is a scalar or a composite
    matcher; of the composite ones the spec fixes the encoding of the all-of
    matcher over a list of strings only. *)
Inductive matcher :=
  | MStr (s : string)
  | MNum (n : Z)
  | MBool (b : bool)
  | MAll (tags : list string).

Abbreviation Filter := (list (string * matcher)).

Definition is_upper (c : ascii) : bool :=
  let n := nat_of_ascii c in ((65 <=? n) && (n <=? 90))%nat.
Definition is_lower (c : ascii) : bool :=
  let n := nat_of_ascii c in ((97 <=? n) && (n <=? 122))%nat.
Definition is_digit (c : ascii) : bool :=
  let n := nat_of_ascii c in ((48 <=? n) && (n <=? 57))%nat.
Definition to_lower (c : ascii) : ascii :=
  if is_upper c then ascii_of_nat (nat_of_ascii c + 32)%nat else c.

(** Modelled from the spec: the query translation of [./http] is not among
    the sources.  [after_word] tells whether the character before was a
    lowercase letter or a digit, where an uppercase letter starts a new word. *)
Fixpoint paramCase_from (after_word : bool) (s : string) : string :=
  match s with
  | EmptyString => EmptyString
  | String c s' =>
      if is_upper c then
        let rest := String (to_lower c) (paramCase_from false s') in
        if after_word then String "-"%char rest else rest
      else String c (paramCase_from (is_lower c || is_digit c) s')
  end.

(** Modelled from the spec: the query translation of [./http] is not among
    the sources.  A key is rendered in lowercase-hyphenated form: a hyphen
    separates an uppercase letter from the lowercase letter or digit before
    it, and every letter is lowercased; on the filter keys of the unit tests
    this is what their [paramCase] yields. *)
Definition paramCase (key : string) : string := paramCase_from false key.

(** Modelled from the spec: the value encoding of [./http] is not among the
    sources.  A scalar serializes as its string form, the all-of matcher over
    [t1; ...; tn] as [all:t1,...,tn]. *)
Definition serialize (m : matcher) : string :=
  match m with
  | MStr s => s
  | MNum n => string_of_Z n
  | MBool true => "true"
  | MBool false => "false"
  | MAll tags => "all:" ++ String.concat "," tags
  end.

(** Modelled from the spec: the query translation of [./http] is not among
    the sources.  Each filter key maps one-to-one to a query parameter. *)
Definition query_of (filter : option Filter) : list (string * string) :=
  match filter with
  | None => []
  | Some f => map (fun kv => (paramCase (fst kv), serialize (snd kv))) f
  end.

(** The vocabulary of filter keys and values, to state what the translation
    does to them.  A camel-case key is made of words: the first as it is,
    each later one with its first letter in upper case. *)
Definition to_upper (c : ascii) : ascii :=
  if is_lower c then ascii_of_nat (nat_of_ascii c - 32)%nat else c.

Definition is_word_char (c : ascii) : bool := is_lower c || is_digit c.

(** A word: a lowercase letter, then lowercase letters and digits. *)
Definition is_word (w : string) : bool :=
  match w with
  | EmptyString => false
  | String c w' => is_lower c && forallb is_word_char (list_ascii_of_string w')
  end.

Definition capitalize (w : string) : string :=
  match w with
  | EmptyString => EmptyString
  | String c w' => String (to_upper c) w'
  end.

Definition camelCase (words : list string) : string :=
  match words with
  | [] => ""
  | w :: ws => w ++ String.concat "" (map capitalize ws)
  end.

(** The character of a decimal digit: ["0"] is character 48. *)
Definition digit_char (n : Z) : ascii := ascii_of_nat (48 + Z.to_nat n).

(** [Number.isSafeInteger]: the integers a JavaScript number holds exactly,
    all of which it prints digit by digit. *)
Definition is_safe_integer (n : Z) : bool := Z.abs n <=? 9007199254740991.

(** The one-digit numeral of a number below ten. *)
Definition digit_uint (r : Z) : Decimal.uint :=
  match r with
  | 0 => Decimal.D0 Decimal.Nil | 1 => Decimal.D1 Decimal.Nil
  | 2 => Decimal.D2 Decimal.Nil | 3 => Decimal.D3 Decimal.Nil
  | 4 => Decimal.D4 Decimal.Nil | 5 => Decimal.D5 Decimal.Nil
  | 6 => Decimal.D6 Decimal.Nil | 7 => Decimal.D7 Decimal.Nil
  | 8 => Decimal.D8 Decimal.Nil | _ => Decimal.D9 Decimal.Nil
  end.

(** Modelled from the spec: [HttpClient] of [./http] is not among the
    sources.  Exactly one request is issued per operation, with no retry;
    the gateway answers it. *)
Definition send (c : HttpClient) (r : Request) : Async Response :=
  fun w => (Resolved (gateway c (sent w) r), mkWorld (heap w) (sent w ++ [r])).

Definition is_2xx (s : Z) : bool := (200 <=? s) && (s <? 300).

(** Modelled from the spec: [HttpClient] of [./http] is not among the
    sources.  A JSON operation resolves with the parsed body when the status
    is the expected one, and rejects with a request error otherwise. *)
Definition parsed (expected : Z) (r : Response) : Async json :=
  if status r =? expected then
    match rjson r with
    | Some j => ret j
    | None => throw SyntaxError
    end
  else throw (RequestError (status r)).

(** Modelled from the spec: [HttpClient.create] of [./http] is not among the
    sources.  POST of a JSON body, expects 201. *)
Definition client_create (c : HttpClient) (ep : string) (params : json) : Async json :=
  r <- send c (mkRequest POST ep [] (JsonBody params)) ;; parsed 201 r.

(** Modelled from the spec: [HttpClient.get] of [./http] is not among the
    sources.  GET with the filter as query parameters, expects 200. *)
Definition client_get (c : HttpClient) (ep : string) (filter : option Filter) : Async json :=
  r <- send c (mkRequest GET ep (query_of filter) NoBody) ;; parsed 200 r.

(** Modelled from the spec: [HttpClient.update] of [./http] is not among the
    sources.  PUT of a JSON body, expects 200. *)
Definition client_update (c : HttpClient) (ep : string) (params : json) : Async json :=
  r <- send c (mkRequest PUT ep [] (JsonBody params)) ;; parsed 200 r.

(** Modelled from the spec: [HttpClient.delete] of [./http] is not among the
    sources.  DELETE, expects 204; any other status is an error, a
    success-shaped one being a contract violation. *)
Definition client_delete (c : HttpClient) (ep : string) : Async unit :=
  r <- send c (mkRequest DELETE ep [] NoBody) ;;
  if status r =? 204 then ret tt
  else if is_2xx (status r) then throw (ContractViolation (status r))
  else throw (RequestError (status r)).

(** The [{results, nextPageToken}] envelope. *)
Record Page := mkPage {
  results : list loc;
  nextPageToken : value
}.

(** [v.map(f)] for a value read from a parsed body: only an array has [map]. *)
Definition array_of (v : value) : Async (list json) :=
  match v with
  | VJson (JArr xs) => ret xs
  | _ => throw TypeError
  end.

(** Reading a property of a parsed body, throwing on [null]. *)
Definition member (j : json) (k : string) : Async value :=
  match j with
  | JNull => throw TypeError
  | _ => ret (prop j k)
  end.

(** ** Plain-data schemas *)

Inductive ftype := TString | TBoolean | TIds.

#[export] Instance ftype_eq_dec : EqDecision ftype.
Proof. solve_decision. Defined.

Definition has_type (t : ftype) (j : json) : bool :=
  match t, j with
  | TString, JStr _ => true
  | TBoolean, JBool _ => true
  | TIds, JArr xs => forallb (fun x => match x with JStr _ => true | _ => false end) xs
  | _, _ => false
  end.

(** A field of a plain-data type: its name, its type, whether it is required. *)
Abbreviation schema := (list (string * ftype * bool)).

Definition field_ok (m : gmap string json) (f : string * ftype * bool) : bool :=
  match m !! f.1.1 with
  | Some j => has_type f.1.2 j
  | None => negb f.2
  end.

Definition conforms (s : schema) (pod : json) : bool :=
  match pod with
  | JObj m => forallb (field_ok m) s
  | _ => false
  end.

Definition names (s : schema) : list string := map (fun f => f.1.1) s.

(** Modelled from the spec: [PODModel] of [./model] is not among the sources.
    A snapshot always includes [id] and [createdAt], an ISO-8601 timestamp. *)
Definition PODModel : schema :=
  [("id", TString, true); ("createdAt", TString, true)].

(** ** [app.ts], first revision (lines 1-201 of the source) *)

Module PartA.

(** [PODApp], lines 11-34. *)
Definition PODApp : schema :=
  PODModel ++
  [("acceptanceText", TString, false);
   ("admins", TIds, true);
   ("allowUserUploads", TBoolean, true);
   ("brandingColor", TString, false);
   ("category", TString, false);
   ("collaborators", TIds, true);
   ("extendedDescription", TString, false);
   ("homepageUrl", TString, true);
   ("invitationText", TString, false);
   ("inviteOnly", TBoolean, true);
   ("invites", TIds, false);
   ("logoUrl", TString, true);
   ("name", TString, true);
   ("organization", TString, true);
   ("owner", TString, true);
   ("participants", TIds, true);
   ("published", TBoolean, true);
   ("rejectionText", TString, false);
   ("shortDescription", TString, true);
   ("termsAndConditions", TString, true);
   ("privacyPolicy", TString, true);
   ("trusted", TBoolean, true)].

(** The public fields the class [App] declares without [?], lines 36-85. *)
Definition App_required : list string :=
  ["id"; "createdAt"; "owner"; "admins"; "collaborators"; "published";
   "inviteOnly"; "invites"; "participants"; "allowUserUploads"; "name";
   "organization"; "shortDescription"; "homepageUrl"; "logoUrl";
   "privacyPolicy"; "termsAndConditions"; "trusted"].

(** The public fields the class [App] declares with [?]. *)
Definition App_optional : list string :=
  ["invitationText"; "acceptanceText"; "rejectionText"; "extendedDescription";
   "brandingColor"; "category"].

Definition App_public : list string := App_required ++ App_optional.

(** Lines 183-184. *)
Definition APPS_EP : string := "apps".
Definition endpointForId (id : string) : string := APPS_EP ++ "/" ++ id.

(** The constructor, lines 87-112: the transport is kept as the property
    [client], and every field is assigned from the snapshot; the casts to
    identifier types exist for the type checker only. *)
Definition App_constructor `{JSDate} (client : HttpClient) (pod : json) : obj :=
  let this : obj := {[ "client" := VClient client ]} in
  let this := <["acceptanceText" := prop pod "acceptanceText"]> this in
  let this := <["admins" := prop pod "admins"]> this in
  let this := <["allowUserUploads" := prop pod "allowUserUploads"]> this in
  let this := <["brandingColor" := prop pod "brandingColor"]> this in
  let this := <["category" := prop pod "category"]> this in
  let this := <["collaborators" := prop pod "collaborators"]> this in
  let this := <["createdAt" := new_Date (prop pod "createdAt")]> this in
  let this := <["owner" := prop pod "owner"]> this in
  let this := <["extendedDescription" := prop pod "extendedDescription"]> this in
  let this := <["homepageUrl" := prop pod "homepageUrl"]> this in
  let this := <["id" := prop pod "id"]> this in
  let this := <["invites" := prop pod "invites"]> this in
  let this := <["invitationText" := prop pod "invitationText"]> this in
  let this := <["inviteOnly" := prop pod "inviteOnly"]> this in
  let this := <["name" := prop pod "name"]> this in
  let this := <["organization" := prop pod "organization"]> this in
  let this := <["participants" := prop pod "participants"]> this in
  let this := <["privacyPolicy" := prop pod "privacyPolicy"]> this in
  let this := <["published" := prop pod "published"]> this in
  let this := <["rejectionText" := prop pod "rejectionText"]> this in
  let this := <["shortDescription" := prop pod "shortDescription"]> this in
  let this := <["termsAndConditions" := prop pod "termsAndConditions"]> this in
  let this := <["logoUrl" := prop pod "logoUrl"]> this in
  let this := <["trusted" := prop pod "trusted"]> this in
  this.

(** [new App(client, pod)]; the first property read throws on [null]. *)
Definition new_App `{JSDate} (client : HttpClient) (pod : json) : Async loc :=
  match pod with
  | JNull => throw TypeError
  | _ => alloc (App_constructor client pod)
  end.

(** The namespace [AppImpl], lines 147-181. *)
Definition AppImpl_create `{JSDate} (client : HttpClient) (params : json) : Async loc :=
  podApp <- client_create client APPS_EP params ;; new_App client podApp.

Definition AppImpl_get `{JSDate} (client : HttpClient) (id : string) : Async loc :=
  podApp <- client_get client (endpointForId id) None ;; new_App client podApp.

Definition AppImpl_list `{JSDate} (client : HttpClient) (filter : option Filter)
  : Async Page :=
  podPage <- client_get client APPS_EP filter ;;
  rs <- member podPage "results" ;;
  pods <- array_of rs ;;
  results <- mapM (fun podApp => new_App client podApp) pods ;;
  ret {| results := results; nextPageToken := prop podPage "nextPageToken" |}.

Definition AppImpl_update `{JSDate} (client : HttpClient) (id : string) (params : json)
  : Async loc :=
  podApp <- client_update client (endpointForId id) params ;; new_App client podApp.

Definition AppImpl_delete_ (client : HttpClient) (id : string) : Async unit :=
  client_delete client (endpointForId id).

(** [this.client] and [this.id] are read before the request is awaited; the
    template literal of [endpointForId] turns the id into a string. *)
Definition App_update `{JSDate} (this : loc) (params : json) : Async loc :=
  o <- load this ;;
  client <- as_client (read o "client") ;;
  fresh <- AppImpl_update client (ToString (read o "id")) params ;;
  Object_assign this fresh ;;
  ret this.

Definition App_delete `{JSDate} (this : loc) : Async unit :=
  o <- load this ;;
  client <- as_client (read o "client") ;;
  AppImpl_delete_ client (ToString (read o "id")).

End PartA.

(** ** [app.ts], second revision (lines 203-399 of the source) *)

Module PartB.

(** [PODApp], lines 213-234. *)
Definition PODApp : schema :=
  PODModel ++
  [("acceptanceText", TString, false);
   ("admins", TIds, true);
   ("brandingColor", TString, false);
   ("category", TString, false);
   ("collaborators", TIds, true);
   ("extendedDescription", TString, false);
   ("homepage", TString, true);
   ("invitationText", TString, false);
   ("inviteOnly", TBoolean, true);
   ("invites", TIds, false);
   ("logo", TString, false);
   ("name", TString, true);
   ("organization", TString, true);
   ("owner", TString, true);
   ("participants", TIds, true);
   ("privacyPolicy", TString, true);
   ("published", TBoolean, true);
   ("rejectionText", TString, false);
   ("shortDescription", TString, true);
   ("termsAndConditions", TString, true)].

(** Lines 378-379. *)
Definition APPS_EP : string := "/apps".
Definition endpointForId (id : string) : string := "/apps/" ++ id.

Definition App_constructor `{JSDate} (client : HttpClient) (pod : json) : obj :=
  let this : obj := {[ "client" := VClient client ]} in
  let this := <["acceptanceText" := prop pod "acceptanceText"]> this in
  let this := <["admins" := prop pod "admins"]> this in
  let this := <["brandingColor" := prop pod "brandingColor"]> this in
  let this := <["category" := prop pod "category"]> this in
  let this := <["collaborators" := prop pod "collaborators"]> this in
  let this := <["createdAt" := new_Date (prop pod "createdAt")]> this in
  let this := <["owner" := prop pod "owner"]> this in
  let this := <["extendedDescription" := prop pod "extendedDescription"]> this in
  let this := <["homepage" := prop pod "homepage"]> this in
  let this := <["id" := prop pod "id"]> this in
  let this := <["invites" := prop pod "invites"]> this in
  let this := <["invitationText" := prop pod "invitationText"]> this in
  let this := <["inviteOnly" := prop pod "inviteOnly"]> this in
  let this := <["name" := prop pod "name"]> this in
  let this := <["organization" := prop pod "organization"]> this in
  let this := <["participants" := prop pod "participants"]> this in
  let this := <["privacyPolicy" := prop pod "privacyPolicy"]> this in
  let this := <["published" := prop pod "published"]> this in
  let this := <["rejectionText" := prop pod "rejectionText"]> this in
  let this := <["shortDescription" := prop pod "shortDescription"]> this in
  let this := <["termsAndConditions" := prop pod "termsAndConditions"]> this in
  let this := <["logo" := prop pod "logo"]> this in
  this.

Definition new_App `{JSDate} (client : HttpClient) (pod : json) : Async loc :=
  match pod with
  | JNull => throw TypeError
  | _ => alloc (App_constructor client pod)
  end.

Definition AppImpl_create `{JSDate} (client : HttpClient) (params : json) : Async loc :=
  podApp <- client_create client APPS_EP params ;; new_App client podApp.

Definition AppImpl_get `{JSDate} (client : HttpClient) (id : string) : Async loc :=
  podApp <- client_get client (endpointForId id) None ;; new_App client podApp.

Definition AppImpl_list `{JSDate} (client : HttpClient) (filter : option Filter)
  : Async Page :=
  podPage <- client_get client APPS_EP filter ;;
  rs <- member podPage "results" ;;
  pods <- array_of rs ;;
  results <- mapM (fun podApp => new_App client podApp) pods ;;
  ret {| results := results; nextPageToken := prop podPage "nextPageToken" |}.

Definition AppImpl_update `{JSDate} (client : HttpClient) (id : string) (params : json)
  : Async loc :=
  podApp <- client_update client (endpointForId id) params ;; new_App client podApp.

Definition AppImpl_delete_ (client : HttpClient) (id : string) : Async unit :=
  client_delete client (endpointForId id).

Definition App_update `{JSDate} (this : loc) (params : json) : Async loc :=
  o <- load this ;;
  client <- as_client (read o "client") ;;
  fresh <- AppImpl_update client (ToString (read o "id")) params ;;
  Object_assign this fresh ;;
  ret this.

Definition App_delete `{JSDate} (this : loc) : Async unit :=
  o <- load this ;;
  client <- as_client (read o "client") ;;
  AppImpl_delete_ client (ToString (read o "id")).

End PartB.

(** ** Dataset upload and download *)

(** Modelled from the spec: the resource classes other than [App] are not
    among the sources.  A resource model object is a projection of the
    snapshot it was constructed from: every field of the snapshot, with the
    timestamp parsed to a date, and the transport it was created through. *)
Definition Resource_constructor `{JSDate} (client : HttpClient) (pod : json) : obj :=
  let fields : obj := match pod with JObj m => VJson <$> m | _ => ∅ end in
  <["createdAt" := new_Date (prop pod "createdAt")]>
    (<["client" := VClient client]> fields).

(** Modelled from the spec: the class [Dataset] of [./dataset] is not among
    the sources.  [new Dataset(client, pod)]. *)
Definition new_Dataset `{JSDate} (client : HttpClient) (pod : json) : Async loc :=
  match pod with
  | JNull => throw TypeError
  | _ => alloc (Resource_constructor client pod)
  end.

Record UploadParams := mkUploadParams {
  metadata : option json
}.

Definition supplied_metadata (params : option UploadParams) : option json :=
  match params with
  | Some p => metadata p
  | None => None
  end.

(** Modelled from the spec: [uploadDataset] of [./dataset] is not among the
    sources.  One part named [metadata], JSON-encoded and included only if
    metadata was supplied, and one part named [data], the byte payload
    declared as binary.  The unit tests fix the content types and the JSON of
    the metadata part, an object with the single key [metadata]. *)
Definition upload_parts (data : string) (params : option UploadParams) : list Part :=
  match supplied_metadata params with
  | Some md =>
      [mkPart "metadata" "application/json" (CJson (JObj {[ "metadata" := md ]}))]
  | None => []
  end ++ [mkPart "data" "application/octet-stream" (CBytes data)].

(** Modelled from the spec: [streamUpload] of [./http] is not among the
    sources.  A multipart POST that expects a 2xx status. *)
Definition client_upload (c : HttpClient) (ep : string) (parts : list Part) : Async json :=
  r <- send c (mkRequest POST ep [] (Multipart parts)) ;;
  if is_2xx (status r) then
    match rjson r with
    | Some j => ret j
    | None => throw SyntaxError
    end
  else throw (RequestError (status r)).

(** Modelled from the spec: the endpoints of [./dataset] are not among the
    sources.  The collection endpoint is the rooted plural of the resource. *)
Definition DATASETS_EP : string := "/datasets".

(** Modelled from the spec: [uploadDataset] of [./dataset] is not among the
    sources.  Awaiting the handle yields the created Dataset resource. *)
Definition uploadDataset `{JSDate} (c : HttpClient) (data : string)
    (params : option UploadParams) : Async loc :=
  pod <- client_upload c DATASETS_EP (upload_parts data params) ;;
  new_Dataset c pod.

(** A destination sink: writing a chunk either is acknowledged or reports a
    failure. *)
Class Writable (S : Type) := {
  write : string -> S -> option error * S
}.

(** The sink of the unit tests (lines 554-574 of [parcel.spec.ts]). *)
Record DownloadCollector := mkDownloadCollector {
  options : option error;
  bufs : list string
}.

Definition _write (chunk : string) (this : DownloadCollector)
  : option error * DownloadCollector :=
  match options this with
  | Some e => (Some e, this)
  | None => (None, mkDownloadCollector (options this) (bufs this ++ [chunk]))
  end.

Definition collectedDownload (this : DownloadCollector) : string :=
  String.concat "" (bufs this).

#[export] Instance DownloadCollector_Writable : Writable DownloadCollector :=
  {| write := _write |}.

(** Modelled from the spec: [pipeTo] of [./dataset] is not among the sources.
    The body is streamed chunk by chunk, each write awaited before the next;
    a write failure aborts the stream with the failure the sink reported. *)
Fixpoint pipe {S} `{Writable S} (body : list string) (sink : S) : option error * S :=
  match body with
  | [] => (None, sink)
  | chunk :: rest =>
      match write chunk sink with
      | (None, sink') => pipe rest sink'
      | (Some e, sink') => (Some e, sink')
      end
  end.

(** Modelled from the spec: the endpoints of [./dataset] are not among the
    sources.  The unit tests download from [/datasets/{id}/download]. *)
Definition download_endpoint (id : string) : string :=
  DATASETS_EP ++ "/" ++ id ++ "/download".

(** Modelled from the spec: [downloadDataset] and [pipeTo] of [./dataset] are
    not among the sources.  The download expects 200; any other status fails
    the handle before the first byte. *)
Definition pipeTo {S} `{Writable S} (c : HttpClient) (id : string) (sink : S)
  : World -> outcome unit * S * World :=
  fun w =>
    let r := gateway c (sent w) (mkRequest GET (download_endpoint id) [] NoBody) in
    let w' := mkWorld (heap w) (sent w ++ [mkRequest GET (download_endpoint id) [] NoBody]) in
    if status r =? 200 then
      match pipe (chunks r) sink with
      | (None, sink') => (Resolved tt, sink', w')
      | (Some e, sink') => (Rejected e, sink', w')
      end
    else (Rejected (RequestError (status r)), sink, w').

(** ** The requests of the operations, and what an operation has sent *)

(** The requests of the first revision's operations. *)
Definition update_request (id : string) (params : json) : Request :=
  mkRequest PUT (PartA.endpointForId id) [] (JsonBody params).

Definition delete_request (id : string) : Request :=
  mkRequest DELETE (PartA.endpointForId id) [] NoBody.

Definition list_request (filter : option Filter) : Request :=
  mkRequest GET PartA.APPS_EP (query_of filter) NoBody.

Definition download_request (id : string) : Request :=
  mkRequest GET (download_endpoint id) [] NoBody.

Definition upload_request (data : string) (params : option UploadParams) : Request :=
  mkRequest POST DATASETS_EP [] (Multipart (upload_parts data params)).

(** The requests an operation has sent once it settles. *)
Definition requests_of {A} (m : Async A) (w : World) : list Request := sent (m w).2.

(** An operation that sends nothing. *)
Definition quiet {A} (m : Async A) : Prop := forall w, sent (m w).2 = sent w.

(** ** Test doubles *)

(** A gateway that answers the n-th request with the n-th scripted reply,
    and 404 once the script is exhausted. *)
Definition scripted (replies : list Response) : HttpClient :=
  {| gateway hist _ := nth (length hist) replies (mkResponse 404 [] None) |}.

(** A [Date] that only knows the epoch. *)
Definition epoch_Date : JSDate :=
  {| Date_parse s :=
       if String.eqb s "1970-01-01T00:00:00.000Z" then Some 0 else None;
     Date_toString t :=
       match t with
       | Some _ => "Thu Jan 01 1970 00:00:00 GMT+0000"
       | None => "Invalid Date"
       end |}.

Definition empty_World : World := mkWorld [] [].

(** A snapshot of the first revision's [PODApp] with every optional field
    absent. *)
Definition fixtureApp : json :=
  JObj (list_to_map
    [("id", JStr "a1");
     ("createdAt", JStr "1970-01-01T00:00:00.000Z");
     ("admins", JArr [JStr "i1"]);
     ("allowUserUploads", JBool true);
     ("collaborators", JArr [JStr "i2"; JStr "i3"]);
     ("homepageUrl", JStr "https://friendly.app");
     ("inviteOnly", JBool true);
     ("logoUrl", JStr "https://friendly.app/logo");
     ("name", JStr "test app");
     ("organization", JStr "Oasis Labs");
     ("owner", JStr "i0");
     ("participants", JArr []);
     ("published", JBool false);
     ("shortDescription", JStr "shrt dscrptn");
     ("termsAndConditions", JStr "https://friendly.app/terms");
     ("privacyPolicy", JStr "https://friendly.app/privacy");
     ("trusted", JBool false)]).

(** The same snapshot after an update that publishes the app. *)
Definition updatedApp : json :=
  match fixtureApp with
  | JObj m => JObj (<["published" := JBool true]> (<["name" := JStr "new name"]> m))
  | j => j
  end.

Definition fixturePage : gmap string json :=
  {[ "results" := JArr [fixtureApp; updatedApp; fixtureApp];
     "nextPageToken" := JStr "b0a5cb1e" ]}.

Definition fixtureMetadata : json :=
  JObj {[ "tags" := JArr [JStr "mock"; JStr "dataset"];
          "key" := JObj {[ "value" := JNum 42 ]} ]}.

Definition fixtureDataset : json :=
  JObj {[ "id" := JStr "d1";
          "createdAt" := JStr "1970-01-01T00:00:00.000Z";
          "creator" := JStr "i0";
          "owner" := JStr "i0";
          "metadata" := fixtureMetadata ]}.

(** ** Helpers of the unit tests *)

(** [Schema], line 163 of [parcel.spec.ts].  Its [type] is the constant
    ['object'] and is left out; [required] may be missing at run time, which
    is why the code reads it through [?? []]. *)
Inductive Schema : Type := mkSchema {
  required : option (list string);
  properties : gmap string json;
  allOf : option (list Schema)
}.

(** [Set.prototype.add] on a set kept in insertion order. *)
Definition Set_add (s : list string) (x : string) : list string :=
  if bool_decide (x ∈ s) then s else s ++ [x].

(** One turn of the loop of [mergeAllOf] once [schema] is settled: its
    required names are added to the set, its properties assigned over the
    merged ones. *)
Definition merge_into (acc : list string * gmap string json) (schema : Schema)
  : list string * gmap string json :=
  (fold_left Set_add (default [] (required schema)) acc.1,
   properties schema ∪ acc.2).

(** The loop of [mergeAllOf], lines 164-178, with the recursive call [self]
    left open; a schema that has an [allOf], even an empty one, is replaced
    by the merge of its [allOf]. *)
Definition mergeAllOf_loop (self : list Schema -> Schema) (allOfs : list Schema)
  : Schema :=
  let acc :=
    fold_left
      (fun acc schema =>
         merge_into acc
           match allOf schema with
           | Some nested => self nested
           | None => schema
           end)
      allOfs ([], ∅) in
  mkSchema (Some acc.1) acc.2 None.

(** The merge of schemas that are settled already. *)
Definition merged (schemas : list Schema) : Schema :=
  let acc := fold_left merge_into schemas ([], ∅) in
  mkSchema (Some acc.1) acc.2 None.

(** What the loop makes of one schema before merging it. *)
Fixpoint settled (schema : Schema) : Schema :=
  match schema with
  | mkSchema _ _ (Some nested) => merged (map settled nested)
  | _ => schema
  end.

(** [mergeAllOf], lines 164-178; [mergeAllOf_unfold] below shows it is the
    loop of the source, recursive call included. *)
Definition mergeAllOf (allOfs : list Schema) : Schema :=
  merged (map settled allOfs).

(** A parameter of an operation of the API description, and the operations
    by endpoint and lowercase method, as [getQueryParametersSchema] reads
    them from [openapiSchema.paths]. *)
Record ApiParameter := mkApiParameter {
  p_in : string;
  p_schema : Schema
}.

Record Operation := mkOperation {
  parameters : option (list ApiParameter)
}.

Definition toLowerCase (method : verb) : string :=
  match method with
  | GET => "get"
  | POST => "post"
  | PUT => "put"
  | DELETE => "delete"
  end.

(** [getQueryParametersSchema], lines 154-161: reading through a missing
    endpoint, method or parameter list throws, and so does [params[0].schema]
    when no parameter is a query parameter. *)
Definition getQueryParametersSchema (paths : gmap string (gmap string Operation))
    (method : verb) (endpoint : string) : outcome Schema :=
  match paths !! endpoint with
  | None => Rejected TypeError
  | Some operations =>
      match operations !! toLowerCase method with
      | None => Rejected TypeError
      | Some operation =>
          match parameters operation with
          | None => Rejected TypeError
          | Some declared =>
              let params := List.filter (fun p => String.eqb (p_in p) "query") declared in
              if (1 <? length params)%nat then
                Resolved (mergeAllOf (map p_schema params))
              else
                match params with
                | p :: _ => Resolved (p_schema p)
                | [] => Rejected TypeError
                end
          end
      end
  end.

(** ** The polling loop of the compute example *)

(** The phases the loop of [main.ts] tells apart: it goes on while the job
    is pending or running, whatever the other phases are. *)
Inductive JobPhase :=
  | PENDING
  | RUNNING
  | Settled (name : string).

Record JobStatusReport := mkJobStatusReport {
  phase : JobPhase;
  outputDocuments : list string
}.

(** The condition of the [do ... while], lines 86-90. *)
Definition goes_on (job : JobStatusReport) : bool :=
  match phase job with
  | PENDING | RUNNING => true
  | Settled _ => false
  end.

(** The loop of lines 86-90 of [main.ts]: wait, ask for the status, print
    it, and go on while the job is pending or running.  [getJobStatus n] is
    the answer to the n-th request; the result is the last report, or the
    rejection that ended the script, with the reports printed so far.  The
    waiting itself is not represented.  [None] when the fuel runs out. *)
Fixpoint poll (fuel : nat) (getJobStatus : nat -> outcome JobStatusReport)
    (asked : nat) (printed : list JobStatusReport)
  : option (outcome JobStatusReport * nat * list JobStatusReport) :=
  match fuel with
  | O => None
  | S fuel' =>
      match getJobStatus asked with
      | Rejected e => Some (Rejected e, S asked, printed)
      | Resolved job =>
          if goes_on job then poll fuel' getJobStatus (S asked) (printed ++ [job])%list
          else Some (Resolved job, S asked, (printed ++ [job])%list)
      end
  end.

(** The snapshot [createPodApp] of the unit tests makes (lines 251-277), with
    fixed identifiers and the epoch as its timestamp. *)
Definition fixturePodApp : json :=
  JObj (list_to_map
    [("id", JStr "a1");
     ("createdAt", JStr "1970-01-01T00:00:00.000Z");
     ("acceptanceText", JStr "thanks for the data!");
     ("brandingColor", JStr "#abcdef");
     ("category", JStr "testing");
     ("owner", JStr "i0");
     ("admins", JArr [JStr "i1"]);
     ("collaborators", JArr [JStr "i2"; JStr "i3"]);
     ("extendedDescription", JStr "looooong description");
     ("homepage", JStr "https://friendly.app");
     ("invitationText", JStr "plz give data");
     ("inviteOnly", JBool true);
     ("invites", JArr [JStr "i4"]);
     ("name", JStr "test app");
     ("organization", JStr "Oasis Labs");
     ("participants", JArr []);
     ("privacyPolicy", JStr "https://friendly.app/privacy");
     ("published", JBool false);
     ("rejectionText", JStr ":(");
     ("shortDescription", JStr "shrt dscrptn");
     ("termsAndConditions", JStr "https://friendly.app/terms");
     ("logo", JStr "data:image/png;base64,SGVsbG8sIFdvcmxkIQ==")]).

(** The same snapshot after the update of the unit tests (lines 913-936),
    shortened to the fields it changes here. *)
Definition updatedPodApp : json :=
  match fixturePodApp with
  | JObj m => JObj (<["published" := JBool true]> (<["name" := JStr "new name"]> m))
  | j => j
  end.

(** The requests of the second revision's operations. *)
Definition get_request_B (id : string) : Request :=
  mkRequest GET (PartB.endpointForId id) [] NoBody.

Definition update_request_B (id : string) (params : json) : Request :=
  mkRequest PUT (PartB.endpointForId id) [] (JsonBody params).

Definition delete_request_B (id : string) : Request :=
  mkRequest DELETE (PartB.endpointForId id) [] NoBody.

Definition list_request_B (filter : option Filter) : Request :=
  mkRequest GET PartB.APPS_EP (query_of filter) NoBody.

(** ** Notions the further properties are stated with *)

(** The names the schemas of a list require, in order. *)
Definition required_names (schemas : list Schema) : list string :=
  concat (map (fun s => default [] (required s)) schemas).

(** The query parameters among the declared ones. *)
Definition query_params (declared : list ApiParameter) : list ApiParameter :=
  List.filter (fun p => String.eqb (p_in p) "query") declared.

(** The API description declares these parameters for the operation. *)
Definition describes (paths : gmap string (gmap string Operation)) (method : verb)
    (endpoint : string) (declared : list ApiParameter) : Prop :=
  exists operations,
    paths !! endpoint = Some operations
    /\ operations !! toLowerCase method = Some (mkOperation (Some declared)).

(** The collector after a sequence of writes, whatever each reported. *)
Definition written (chunks : list string) (this : DownloadCollector) : DownloadCollector :=
  fold_left (fun collector chunk => (_write chunk collector).2) chunks this.

(** [w'] has the object [o] at the location [l], which [w] had not in use,
    and every object of [w] as it was. *)
Definition allocates (w w' : World) (l : loc) (o : obj) : Prop :=
  heap w !! l = None
  /\ heap w' !! l = Some o
  /\ forall l' o', heap w !! l' = Some o' -> heap w' !! l' = Some o'.

(** More requests of the first revision's operations. *)
Definition create_request (params : json) : Request :=
  mkRequest POST PartA.APPS_EP [] (JsonBody params).

Definition get_request (id : string) : Request :=
  mkRequest GET (PartA.endpointForId id) [] NoBody.

(** A parsed body that is neither null nor an object. *)
Definition is_scalar_or_array (body : json) : bool :=
  match body with
  | JNull | JObj _ => false
  | _ => true
  end.

(** * Properties *)

(** ** The monad *)

Lemma bind_resolved {A B} (m : Async A) (k : A -> Async B) w b w' :
  bind m k w = (Resolved b, w') ->
  exists a w1, m w = (Resolved a, w1) /\ k a w1 = (Resolved b, w').
Proof.
  unfold bind. destruct (m w) as [[a | e] w1]; [eauto | discriminate].
Qed.

Lemma bind_step {A B} (m : Async A) (k : A -> Async B) w a w1 :
  m w = (Resolved a, w1) -> bind m k w = k a w1.
Proof. unfold bind. now intros ->. Qed.

Lemma bind_ret_l {A B} (a : A) (k : A -> Async B) w : bind (ret a) k w = k a w.
Proof. reflexivity. Qed.

Lemma send_spec c r w :
  send c r w = (Resolved (gateway c (sent w) r), mkWorld (heap w) (sent w ++ [r])).
Proof. reflexivity. Qed.

(** Only [send] touches the log, only [alloc] and [Object_assign] the heap. *)
Lemma parsed_frame n r w : (parsed n r w).2 = w.
Proof.
  unfold parsed. destruct (status r =? n); [destruct (rjson r) |]; reflexivity.
Qed.

Lemma client_delete_outcome c ep w :
  client_delete c ep w =
  (let s := status (gateway c (sent w) (mkRequest DELETE ep [] NoBody)) in
   if s =? 204 then Resolved tt
   else Rejected (if is_2xx s then ContractViolation s else RequestError s),
   mkWorld (heap w) (sent w ++ [mkRequest DELETE ep [] NoBody])).
Proof.
  unfold client_delete. rewrite (bind_step _ _ _ _ _ (send_spec _ _ _)). cbn zeta.
  destruct (status _ =? 204); [reflexivity |].
  destruct (is_2xx _); reflexivity.
Qed.

(** ** Delete strictness *)

(** C1: for the item endpoint of any resource kind, delete resolves if and
    only if the gateway answers 204; a 200 answer, whatever its body, rejects.
    [AppImpl.delete_] forwards to the transport and inherits both. *)
Theorem delete_resolves_iff_204 (c : HttpClient) (w : World) (ep id : string) :
  let answer e := gateway c (sent w) (mkRequest DELETE e [] NoBody) in
  ((client_delete c ep w).1 = Resolved tt <-> status (answer ep) = 204)
  /\ (status (answer ep) = 200 -> exists e, (client_delete c ep w).1 = Rejected e)
  /\ ((PartA.AppImpl_delete_ c id w).1 = Resolved tt
      <-> status (answer (PartA.endpointForId id)) = 204)
  /\ (status (answer (PartA.endpointForId id)) = 200 ->
      exists e, (PartA.AppImpl_delete_ c id w).1 = Rejected e).
Proof.
  intros answer.
  assert (G : forall e,
    ((client_delete c e w).1 = Resolved tt <-> status (answer e) = 204)
    /\ (status (answer e) = 200 -> exists x, (client_delete c e w).1 = Rejected x)).
  { intros e. rewrite client_delete_outcome. subst answer. cbn [fst]. cbv zeta.
    destruct (Z.eqb_spec (status (gateway c (sent w) (mkRequest DELETE e [] NoBody))) 204)
      as [E | E].
    - split; [tauto |]. intros E'. rewrite E' in E. discriminate.
    - split; [split; [discriminate | contradiction] | eauto]. }
  destruct (G ep) as [G1 G2].
  destruct (G (PartA.endpointForId id)) as [G3 G4].
  unfold PartA.AppImpl_delete_. auto.
Qed.

Lemma delete_resolves_iff_204_witness :
  exists e, (PartA.AppImpl_delete_ (scripted [mkResponse 200 [] None]) "a1" empty_World).1
            = Rejected e.
Proof.
  apply (delete_resolves_iff_204 (scripted [mkResponse 200 [] None]) empty_World "apps/a1" "a1").
  reflexivity.
Defined.

(** ** The constructor *)

Ltac list_literal l :=
  let l' := eval vm_compute in l in change l with l'.

Ltac each_name tac :=
  repeat (apply Forall_cons; split; [tac |]); apply Forall_nil_2.

Lemma for_each {A} (P : A -> Prop) (l : list A) :
  Forall P l -> forall k, k ∈ l -> P k.
Proof. intros HF k Hk. rewrite Forall_forall in HF. auto. Qed.

Section Constructor.
Context `{JSDate}.
Variables (client : HttpClient) (pod : json).

Lemma App_constructor_lookup k :
  k ∈ names PartA.PODApp -> k <> "createdAt" ->
  PartA.App_constructor client pod !! k = Some (prop pod k).
Proof.
  revert k.
  apply (for_each (fun k => k <> "createdAt" ->
                     PartA.App_constructor client pod !! k = Some (prop pod k))).
  list_literal (names PartA.PODApp).
  each_name ltac:(intros Hne; first [reflexivity | exfalso; apply Hne; reflexivity]).
Qed.

Lemma App_constructor_createdAt :
  PartA.App_constructor client pod !! "createdAt"
  = Some (new_Date (prop pod "createdAt")).
Proof. reflexivity. Qed.

Lemma App_constructor_client :
  PartA.App_constructor client pod !! "client" = Some (VClient client).
Proof. reflexivity. Qed.

Lemma App_constructor_dom :
  dom (PartA.App_constructor client pod)
  = list_to_set ("client" :: names PartA.PODApp).
Proof.
  unfold PartA.App_constructor. cbv zeta.
  rewrite !dom_insert_L, dom_singleton_L.
  list_literal (names PartA.PODApp). cbn [list_to_set foldr].
  set_solver.
Qed.

Lemma App_constructor_defined k :
  k ∈ "client" :: names PartA.PODApp ->
  is_Some (PartA.App_constructor client pod !! k).
Proof.
  intros Hk. apply elem_of_dom. rewrite App_constructor_dom.
  now apply elem_of_list_to_set.
Qed.

End Constructor.

(** The public fields of the class are the fields of the plain-data type. *)
Lemma App_public_PODApp k : k ∈ PartA.App_public <-> k ∈ names PartA.PODApp.
Proof.
  split; revert k; apply for_each; apply (bool_decide_unpack _); vm_compute; exact I.
Qed.

Lemma conforms_field (s : schema) (m : gmap string json) k t :
  conforms s (JObj m) = true -> (k, t, true) ∈ s ->
  exists j, m !! k = Some j /\ has_type t j = true.
Proof.
  cbn [conforms]. rewrite forallb_forall. intros Hall Hin.
  apply list_elem_of_In in Hin. specialize (Hall _ Hin).
  unfold field_ok in Hall. cbn [fst snd] in Hall.
  destruct (m !! k) as [j |]; [eauto | discriminate].
Qed.

Lemma has_type_string j : has_type TString j = true -> exists s, j = JStr s.
Proof. destruct j; try discriminate. eauto. Qed.

(** ** Round trip *)

(** C2: an [App] constructed from a valid [PODApp] snapshot reads back the
    snapshot field for field: every public field other than [createdAt]
    holds the snapshot's value (undefined where the snapshot has none),
    [createdAt] is the date the snapshot's timestamp string denotes, and
    [id] is the snapshot's identifier string unchanged. *)
Theorem App_reads_back_snapshot `{JSDate} (client : HttpClient) (pod : json) :
  conforms PartA.PODApp pod = true ->
  let app := PartA.App_constructor client pod in
  (forall k, k ∈ PartA.App_public -> k <> "createdAt" -> app !! k = Some (prop pod k))
  /\ (exists s, prop pod "createdAt" = VJson (JStr s)
                /\ app !! "createdAt" = Some (VDate (Date_parse s)))
  /\ (exists i, prop pod "id" = VJson (JStr i) /\ app !! "id" = Some (VJson (JStr i)))
  /\ (forall k, k ∈ dom app <-> k = "client" \/ k ∈ PartA.App_public).
Proof.
  intros Hvalid app. subst app.
  destruct pod as [| | | | | m]; try discriminate.
  repeat split.
  - intros k Hk Hne. apply App_constructor_lookup; [now apply App_public_PODApp | exact Hne].
  - destruct (conforms_field _ _ "createdAt" TString Hvalid) as (j & Hj & Ht).
    { apply (bool_decide_unpack _). vm_compute. exact I. }
    destruct (has_type_string _ Ht) as [s ->]. exists s.
    rewrite App_constructor_createdAt. cbn [prop]. rewrite Hj. split; reflexivity.
  - destruct (conforms_field _ _ "id" TString Hvalid) as (j & Hj & Ht).
    { apply (bool_decide_unpack _). vm_compute. exact I. }
    destruct (has_type_string _ Ht) as [s ->]. exists s.
    rewrite App_constructor_lookup.
    + cbn [prop]. rewrite Hj. split; reflexivity.
    + apply (bool_decide_unpack _). vm_compute. exact I.
    + discriminate.
  - rewrite App_constructor_dom, elem_of_list_to_set, elem_of_cons, App_public_PODApp.
    tauto.
  - rewrite App_constructor_dom, elem_of_list_to_set, elem_of_cons, App_public_PODApp.
    tauto.
Qed.

Lemma App_reads_back_snapshot_witness :
  let app := @PartA.App_constructor epoch_Date (scripted []) fixtureApp in
  (forall k, k ∈ PartA.App_public -> k <> "createdAt" ->
             app !! k = Some (prop fixtureApp k))
  /\ (exists s, prop fixtureApp "createdAt" = VJson (JStr s)
                /\ app !! "createdAt" = Some (VDate (@Date_parse epoch_Date s)))
  /\ (exists i, prop fixtureApp "id" = VJson (JStr i)
                /\ app !! "id" = Some (VJson (JStr i)))
  /\ (forall k, k ∈ dom app <-> k = "client" \/ k ∈ PartA.App_public).
Proof.
  apply (@App_reads_back_snapshot epoch_Date (scripted []) fixtureApp).
  vm_compute. reflexivity.
Defined.

(** C10: when the snapshot has no [invites], the constructed App's [invites]
    reads undefined, although the class declares [invites] among its
    required fields and the plain-data type declares it optional: the
    constructor copies the field and supplies no default. *)
Theorem App_invites_absent `{JSDate} (client : HttpClient) (m : gmap string json) :
  m !! "invites" = None ->
  PartA.App_constructor client (JObj m) !! "invites" = Some VUndef
  /\ read (PartA.App_constructor client (JObj m)) "invites" = VUndef
  /\ "invites" ∈ PartA.App_required
  /\ ("invites", TIds, false) ∈ PartA.PODApp.
Proof.
  intros Hnone.
  assert (E : PartA.App_constructor client (JObj m) !! "invites" = Some VUndef).
  { rewrite App_constructor_lookup.
    - cbn [prop]. now rewrite Hnone.
    - apply (bool_decide_unpack _). vm_compute. exact I.
    - discriminate. }
  split; [exact E |]. split; [unfold read; now rewrite E |].
  split; apply (bool_decide_unpack _); vm_compute; exact I.
Qed.

Lemma App_invites_absent_witness :
  @PartA.App_constructor epoch_Date (scripted []) fixtureApp !! "invites" = Some VUndef.
Proof.
  refine (proj1 (@App_invites_absent epoch_Date (scripted []) _ _)).
  vm_compute. reflexivity.
Defined.

(** ** Operations of [AppImpl] and of the class *)

Section Operations.
Context `{JSDate}.

Lemma new_App_resolved c pod w :
  pod <> JNull ->
  PartA.new_App c pod w
  = (Resolved (length (heap w)),
     mkWorld (heap w ++ [PartA.App_constructor c pod]) (sent w)).
Proof. intros Hp. destruct pod; [contradiction | reflexivity ..]. Qed.

Lemma new_App_inv c pod w l w' :
  PartA.new_App c pod w = (Resolved l, w') ->
  pod <> JNull /\ l = length (heap w)
  /\ w' = mkWorld (heap w ++ [PartA.App_constructor c pod]) (sent w).
Proof.
  destruct pod; cbn; unfold throw, alloc; intros E; inversion E; subst;
    (repeat split; discriminate).
Qed.

Lemma parsed_inv n r w j w' :
  parsed n r w = (Resolved j, w') -> status r = n /\ rjson r = Some j /\ w' = w.
Proof.
  unfold parsed. destruct (Z.eqb_spec (status r) n) as [E | E].
  - destruct (rjson r); cbn; unfold ret, throw; intros X; inversion X; subst; auto.
  - unfold throw. discriminate.
Qed.

Lemma AppImpl_update_inv c id params w l w' :
  PartA.AppImpl_update c id params w = (Resolved l, w') ->
  exists pod,
    status (gateway c (sent w) (update_request id params)) = 200
    /\ rjson (gateway c (sent w) (update_request id params)) = Some pod
    /\ l = length (heap w)
    /\ w' = mkWorld (heap w ++ [PartA.App_constructor c pod])
                    (sent w ++ [update_request id params]).
Proof.
  unfold PartA.AppImpl_update, client_update. intros E.
  apply bind_resolved in E as (pod & w1 & E1 & E2).
  apply bind_resolved in E1 as (r & w0 & E0 & E1).
  rewrite send_spec in E0. inversion E0; subst r w0; clear E0.
  apply parsed_inv in E1 as (Hs & Hj & ->).
  apply new_App_inv in E2 as (_ & -> & ->).
  exists pod. repeat split; assumption.
Qed.

End Operations.

(** ** Update in place *)

Lemma Object_assign_fresh (this : loc) (o fresh : obj) (h : list obj) (q : list Request) :
  h !! this = Some o ->
  Object_assign this (length h) (mkWorld (h ++ [fresh]) q)
  = (Resolved tt, mkWorld (<[this := fresh ∪ o]> (h ++ [fresh])%list) q).
Proof.
  intros Hthis.
  assert (Hlt : (this < length h)%nat) by (eapply lookup_lt_Some; eassumption).
  unfold Object_assign, bind, load. cbn [heap sent].
  rewrite list_lookup_middle by reflexivity. cbn [heap sent].
  rewrite lookup_app_l by exact Hlt. rewrite Hthis. reflexivity.
Qed.

Lemma assign_covers (fresh o : obj) (k : string) :
  is_Some (fresh !! k) -> (fresh ∪ o) !! k = fresh !! k.
Proof. intros [v Hv]. rewrite Hv. now apply lookup_union_Some_l. Qed.

Lemma assign_absorbs (fresh o : obj) : dom o ⊆ dom fresh -> fresh ∪ o = fresh.
Proof.
  intros Hdom. apply map_eq. intros k.
  destruct (fresh !! k) as [v |] eqn:Hv.
  - now apply lookup_union_Some_l.
  - rewrite lookup_union_r by exact Hv.
    apply not_elem_of_dom. apply not_elem_of_dom in Hv. set_solver.
Qed.

Lemma App_update_inv `{JSDate} (this r : loc) (o : obj) (params : json) (w w' : World) :
  heap w !! this = Some o ->
  PartA.App_update this params w = (Resolved r, w') ->
  r = this
  /\ exists c pod,
       read o "client" = VClient c
       /\ rjson (gateway c (sent w) (update_request (ToString (read o "id")) params))
          = Some pod
       /\ w' = mkWorld (<[this := PartA.App_constructor c pod ∪ o]>
                          (heap w ++ [PartA.App_constructor c pod])%list)
                       (sent w ++ [update_request (ToString (read o "id")) params]).
Proof.
  intros Hthis E. unfold PartA.App_update in E.
  apply bind_resolved in E as (o0 & w0 & E0 & E).
  unfold load in E0. rewrite Hthis in E0. inversion E0; subst o0 w0; clear E0.
  apply bind_resolved in E as (c & w0 & E0 & E).
  destruct (read o "client") as [| | | c0] eqn:Hc; try discriminate E0.
  inversion E0; subst c0 w0; clear E0.
  apply bind_resolved in E as (fresh & w1 & E1 & E).
  apply AppImpl_update_inv in E1 as (pod & Hs & Hj & -> & ->).
  remember (PartA.App_constructor c pod) as fresh eqn:Hfresh.
  rewrite (bind_step _ _ _ _ _ (Object_assign_fresh _ _ _ _ _ Hthis)) in E.
  inversion E; subst r w'; clear E.
  split; [reflexivity |]. exists c, pod.
  split; [reflexivity |]. split; [exact Hj |]. now rewrite <- Hfresh.
Qed.

(** C3: [update] resolves with the very location it was called on, and the
    object there then holds, in every property the constructor sets (every
    public field and the transport), what an [App] constructed from the
    response body alone holds; an object that had no other property equals
    that [App] outright. *)
Theorem App_update_in_place `{JSDate} (this r : loc) (o : obj) (params : json)
    (w w' : World) :
  heap w !! this = Some o ->
  PartA.App_update this params w = (Resolved r, w') ->
  r = this
  /\ exists c pod o',
       read o "client" = VClient c
       /\ rjson (gateway c (sent w) (update_request (ToString (read o "id")) params))
          = Some pod
       /\ heap w' !! this = Some o'
       /\ o' = PartA.App_constructor c pod ∪ o
       /\ (forall k, k = "client" \/ k ∈ PartA.App_public ->
                     o' !! k = PartA.App_constructor c pod !! k)
       /\ (dom o ⊆ dom (PartA.App_constructor c pod) ->
           o' = PartA.App_constructor c pod).
Proof.
  intros Hthis E.
  destruct (App_update_inv _ _ _ _ _ _ Hthis E) as (-> & c & pod & Hc & Hj & ->).
  split; [reflexivity |].
  assert (Hdef : forall k, k = "client" \/ k ∈ PartA.App_public ->
                           is_Some (PartA.App_constructor c pod !! k)).
  { intros k Hk. apply App_constructor_defined.
    rewrite elem_of_cons, <- App_public_PODApp. exact Hk. }
  exists c, pod, (PartA.App_constructor c pod ∪ o).
  split; [exact Hc |]. split; [exact Hj |].
  split; [| split; [reflexivity | split]].
  - cbn [heap]. apply list_lookup_insert_eq. rewrite length_app.
    apply lookup_lt_Some in Hthis. lia.
  - intros k Hk. apply assign_covers, Hdef, Hk.
  - apply assign_absorbs.
Qed.

Lemma App_update_in_place_witness :
  let c := scripted [mkResponse 200 [] (Some updatedApp)] in
  let o := @PartA.App_constructor epoch_Date c fixtureApp in
  let w := mkWorld [o] [] in
  let w' := (@PartA.App_update epoch_Date 0%nat (JObj ∅) w).2 in
  0%nat = 0%nat
  /\ exists c pod o',
       read o "client" = VClient c
       /\ rjson (gateway c (sent w)
                   (update_request (@ToString epoch_Date (read o "id")) (JObj ∅)))
          = Some pod
       /\ heap w' !! 0%nat = Some o'
       /\ o' = @PartA.App_constructor epoch_Date c pod ∪ o
       /\ (forall k, k = "client" \/ k ∈ PartA.App_public ->
                     o' !! k = @PartA.App_constructor epoch_Date c pod !! k)
       /\ (dom o ⊆ dom (@PartA.App_constructor epoch_Date c pod) ->
           o' = @PartA.App_constructor epoch_Date c pod).
Proof.
  intros c o w w'.
  apply (@App_update_in_place epoch_Date 0%nat 0%nat o (JObj ∅) w w').
  - reflexivity.
  - vm_compute. reflexivity.
Defined.

(** ** Delete leaves the object alone *)

(** C9: [delete] on an App changes no object of the heap, so every field of
    the object it was called on reads as before; its one effect is the DELETE
    request for the object's own id, and it resolves (with nothing) exactly
    when that request is answered 204. *)
Theorem App_delete_leaves_fields `{JSDate} (this : loc) (o : obj) (c : HttpClient)
    (w : World) :
  heap w !! this = Some o ->
  read o "client" = VClient c ->
  let id := ToString (read o "id") in
  let result := PartA.App_delete this w in
  heap result.2 = heap w
  /\ heap result.2 !! this = Some o
  /\ sent result.2 = (sent w ++ [delete_request id])%list
  /\ (result.1 = Resolved tt <-> status (gateway c (sent w) (delete_request id)) = 204).
Proof.
  intros Hthis Hc id result. subst result.
  unfold PartA.App_delete.
  assert (L : load this w = (Resolved o, w)) by (unfold load; now rewrite Hthis).
  rewrite (bind_step _ _ _ _ _ L). rewrite Hc.
  rewrite (bind_step (as_client (VClient c)) _ w c w) by reflexivity.
  fold id. unfold PartA.AppImpl_delete_. rewrite client_delete_outcome.
  cbn [fst snd heap sent]. fold (delete_request id).
  split; [reflexivity |]. split; [exact Hthis |]. split; [reflexivity |].
  cbv zeta. destruct (Z.eqb_spec (status (gateway c (sent w) (delete_request id))) 204).
  - tauto.
  - split; [discriminate | contradiction].
Qed.

Lemma App_delete_leaves_fields_witness :
  let c := scripted [mkResponse 204 [] None] in
  let o := @PartA.App_constructor epoch_Date c fixtureApp in
  let w := mkWorld [o] [] in
  let result := @PartA.App_delete epoch_Date 0%nat w in
  heap result.2 = heap w
  /\ heap result.2 !! 0%nat = Some o
  /\ sent result.2 = (sent w ++ [delete_request "a1"])%list
  /\ (result.1 = Resolved tt <-> status (gateway c (sent w) (delete_request "a1")) = 204).
Proof.
  intros c o w.
  apply (@App_delete_leaves_fields epoch_Date 0%nat o c w); reflexivity.
Defined.

(** The frame part holds for any call, also on a location that holds no App. *)
Lemma App_delete_heap `{JSDate} (this : loc) (w : World) :
  heap (PartA.App_delete this w).2 = heap w.
Proof.
  unfold PartA.App_delete, bind, load.
  destruct (heap w !! this) as [o |]; [| reflexivity].
  destruct (read o "client"); try reflexivity.
  cbn [as_client ret]. unfold PartA.AppImpl_delete_.
  now rewrite client_delete_outcome.
Qed.

(** ** Listing *)

Lemma mapM_new_App `{JSDate} (c : HttpClient) (pods : list json) (w : World) :
  Forall (fun pod => pod <> JNull) pods ->
  mapM (fun podApp => PartA.new_App c podApp) pods w
  = (Resolved (seq (length (heap w)) (length pods)),
     mkWorld (heap w ++ map (PartA.App_constructor c) pods) (sent w)).
Proof.
  intros Hpods. revert w.
  induction Hpods as [| pod pods Hpod _ IH]; intros w.
  - cbn. unfold ret. rewrite app_nil_r. now destruct w.
  - cbn [mapM].
    rewrite (bind_step _ _ _ _ _ (new_App_resolved c pod w Hpod)).
    rewrite (bind_step _ _ _ _ _ (IH _)). unfold ret. cbn [heap sent].
    rewrite length_app, Nat.add_1_r, <- app_assoc. reflexivity.
Qed.

Lemma AppImpl_list_resolved `{JSDate} (c : HttpClient) (filter : option Filter)
    (w : World) (m : gmap string json) (pods : list json) :
  status (gateway c (sent w) (list_request filter)) = 200 ->
  rjson (gateway c (sent w) (list_request filter)) = Some (JObj m) ->
  m !! "results" = Some (JArr pods) ->
  Forall (fun pod => pod <> JNull) pods ->
  PartA.AppImpl_list c filter w
  = (Resolved {| results := seq (length (heap w)) (length pods);
                 nextPageToken := from_option VJson VUndef (m !! "nextPageToken") |},
     mkWorld (heap w ++ map (PartA.App_constructor c) pods)
             (sent w ++ [list_request filter])).
Proof.
  intros Hs Hj Hr Hpods. unfold PartA.AppImpl_list, client_get.
  fold (list_request filter).
  assert (G : bind (send c (list_request filter)) (fun r => parsed 200 r) w
              = (Resolved (JObj m),
                 mkWorld (heap w) (sent w ++ [list_request filter]))).
  { rewrite (bind_step _ _ _ _ _ (send_spec _ _ _)).
    unfold parsed. rewrite Hs, Hj. reflexivity. }
  rewrite (bind_step _ _ _ _ _ G).
  cbn [member prop]. rewrite Hr. cbn [from_option].
  rewrite bind_ret_l. cbn [array_of]. rewrite bind_ret_l.
  rewrite (bind_step _ _ _ _ _ (mapM_new_App c pods _ Hpods)).
  reflexivity.
Qed.

(** C4: when the gateway answers a listing with N results and a token, the
    page has exactly N objects, the i-th being an [App] constructed from the
    i-th result, and its [nextPageToken] is the token string as provided;
    with zero results the sequence is empty, and with no token provided
    [nextPageToken] is undefined. *)
Theorem AppImpl_list_page `{JSDate} (c : HttpClient) (filter : option Filter)
    (w : World) (m : gmap string json) (pods : list json) :
  status (gateway c (sent w) (list_request filter)) = 200 ->
  rjson (gateway c (sent w) (list_request filter)) = Some (JObj m) ->
  m !! "results" = Some (JArr pods) ->
  Forall (fun pod => pod <> JNull) pods ->
  exists page w',
    PartA.AppImpl_list c filter w = (Resolved page, w')
    /\ length (results page) = length pods
    /\ (forall i pod, pods !! i = Some pod ->
          exists l, results page !! i = Some l
                    /\ heap w' !! l = Some (PartA.App_constructor c pod))
    /\ (forall t, m !! "nextPageToken" = Some (JStr t) ->
                  nextPageToken page = VJson (JStr t))
    /\ (m !! "nextPageToken" = None -> nextPageToken page = VUndef)
    /\ (pods = [] -> results page = []).
Proof.
  intros Hs Hj Hr Hpods.
  eexists _, _. split; [apply (AppImpl_list_resolved c filter w m pods); assumption |].
  cbn [results nextPageToken heap].
  split; [apply length_seq |]. split; [| split; [| split]].
  - intros i pod Hi. exists (length (heap w) + i)%nat.
    assert (Hlt : (i < length pods)%nat) by (eapply lookup_lt_Some; eassumption).
    split; [now apply lookup_seq_lt |].
    rewrite lookup_app_r by lia.
    replace (length (heap w) + i - length (heap w))%nat with i by lia.
    rewrite list_lookup_fmap, Hi. reflexivity.
  - intros t Ht. now rewrite Ht.
  - intros Ht. now rewrite Ht.
  - intros ->. reflexivity.
Qed.

Lemma AppImpl_list_page_witness :
  let c := scripted [mkResponse 200 [] (Some (JObj fixturePage))] in
  exists page w',
    @PartA.AppImpl_list epoch_Date c None empty_World = (Resolved page, w')
    /\ length (results page) = length [fixtureApp; updatedApp; fixtureApp]
    /\ (forall i pod, [fixtureApp; updatedApp; fixtureApp] !! i = Some pod ->
          exists l, results page !! i = Some l
                    /\ heap w' !! l = Some (@PartA.App_constructor epoch_Date c pod))
    /\ (forall t, fixturePage !! "nextPageToken" = Some (JStr t) ->
                  nextPageToken page = VJson (JStr t))
    /\ (fixturePage !! "nextPageToken" = None -> nextPageToken page = VUndef)
    /\ ([fixtureApp; updatedApp; fixtureApp] = [] -> results page = []).
Proof.
  intros c.
  apply (@AppImpl_list_page epoch_Date c None empty_World fixturePage).
  - reflexivity.
  - reflexivity.
  - reflexivity.
  - repeat (apply Forall_cons; split; [discriminate |]). apply Forall_nil_2.
Defined.

(** ** Endpoints *)

Lemma quiet_ret {A} (a : A) : quiet (ret a).
Proof. intros w. reflexivity. Qed.

Lemma quiet_throw {A} e : quiet (@throw A e).
Proof. intros w. reflexivity. Qed.

Lemma quiet_bind {A B} (m : Async A) (k : A -> Async B) :
  quiet m -> (forall a, quiet (k a)) -> quiet (bind m k).
Proof.
  intros Hm Hk w. unfold bind. specialize (Hm w).
  destruct (m w) as [[a | e] w1]; cbn [snd] in *; [now rewrite Hk | exact Hm].
Qed.

Lemma quiet_alloc o : quiet (alloc o).
Proof. intros w. reflexivity. Qed.

Lemma quiet_parsed n r : quiet (parsed n r).
Proof. intros w. now rewrite parsed_frame. Qed.

Lemma quiet_member j k : quiet (member j k).
Proof. destruct j; first [apply quiet_throw | apply quiet_ret]. Qed.

Lemma quiet_array_of v : quiet (array_of v).
Proof. destruct v as [| [] | |]; first [apply quiet_throw | apply quiet_ret]. Qed.

Lemma quiet_mapM {A B} (f : A -> Async B) xs : (forall x, quiet (f x)) -> quiet (mapM f xs).
Proof.
  intros Hf. induction xs as [| x xs IH]; cbn [mapM]; [apply quiet_ret |].
  apply quiet_bind; [apply Hf |]. intros y.
  apply quiet_bind; [exact IH |]. intros ys. apply quiet_ret.
Qed.

Lemma quiet_new_App_A `{JSDate} c pod : quiet (PartA.new_App c pod).
Proof. destruct pod; first [apply quiet_throw | apply quiet_alloc]. Qed.

Lemma quiet_new_App_B `{JSDate} c pod : quiet (PartB.new_App c pod).
Proof. destruct pod; first [apply quiet_throw | apply quiet_alloc]. Qed.

Create HintDb quiet.
#[export] Hint Resolve quiet_ret quiet_throw quiet_alloc quiet_parsed quiet_member
  quiet_array_of quiet_new_App_A quiet_new_App_B : quiet.

(** One request, then nothing more. *)
Lemma sends_once {A} (c : HttpClient) (r : Request) (k : Response -> Async A) w :
  (forall x, quiet (k x)) ->
  requests_of (bind (send c r) k) w = (sent w ++ [r])%list.
Proof.
  intros Hk. unfold requests_of. rewrite (bind_step _ _ _ _ _ (send_spec _ _ _)).
  now rewrite Hk.
Qed.

Lemma sends_once_then {A B} (c : HttpClient) (r : Request) (k : Response -> Async A)
    (k' : A -> Async B) w :
  (forall x, quiet (k x)) -> (forall a, quiet (k' a)) ->
  requests_of (bind (bind (send c r) k) k') w = (sent w ++ [r])%list.
Proof.
  intros Hk Hk'. unfold requests_of, bind at 1.
  pose proof (sends_once c r k w Hk) as E. unfold requests_of in E.
  destruct (bind (send c r) k w) as [[a | e] w1]; cbn [snd] in *; [| exact E].
  now rewrite Hk'.
Qed.

Ltac one_request :=
  first
    [ apply sends_once_then; intros; auto 6 with quiet
    | apply sends_once; intros; auto 6 with quiet ].

(** C8, as the code has it: in both revisions create and list address the
    collection endpoint [APPS_EP], and get, update and delete address
    [APPS_EP], one slash, and the id.  [APPS_EP] is [/apps] in the second
    revision, and the relative [apps], with no leading slash, in the first. *)
Theorem App_endpoints `{JSDate} (c : HttpClient) (w : World) (params : json)
    (filter : option Filter) (i : string) :
  let one r := (sent w ++ [r])%list in
  (requests_of (PartB.AppImpl_create c params) w
     = one (mkRequest POST "/apps" [] (JsonBody params))
   /\ requests_of (PartB.AppImpl_list c filter) w
     = one (mkRequest GET "/apps" (query_of filter) NoBody)
   /\ requests_of (PartB.AppImpl_get c i) w
     = one (mkRequest GET ("/apps/" ++ i) [] NoBody)
   /\ requests_of (PartB.AppImpl_update c i params) w
     = one (mkRequest PUT ("/apps/" ++ i) [] (JsonBody params))
   /\ requests_of (PartB.AppImpl_delete_ c i) w
     = one (mkRequest DELETE ("/apps/" ++ i) [] NoBody))
  /\
  (requests_of (PartA.AppImpl_create c params) w
     = one (mkRequest POST "apps" [] (JsonBody params))
   /\ requests_of (PartA.AppImpl_list c filter) w
     = one (mkRequest GET "apps" (query_of filter) NoBody)
   /\ requests_of (PartA.AppImpl_get c i) w
     = one (mkRequest GET ("apps/" ++ i) [] NoBody)
   /\ requests_of (PartA.AppImpl_update c i params) w
     = one (mkRequest PUT ("apps/" ++ i) [] (JsonBody params))
   /\ requests_of (PartA.AppImpl_delete_ c i) w
     = one (mkRequest DELETE ("apps/" ++ i) [] NoBody)).
Proof.
  intros one. subst one.
  repeat split.
  - unfold PartB.AppImpl_create, client_create. one_request.
  - unfold PartB.AppImpl_list, client_get. apply sends_once_then; intros; auto with quiet.
    repeat (apply quiet_bind; [auto using quiet_mapM with quiet | intros]).
    apply quiet_ret.
  - unfold PartB.AppImpl_get, client_get. one_request.
  - unfold PartB.AppImpl_update, client_update. one_request.
  - unfold PartB.AppImpl_delete_, client_delete. apply sends_once. intros r.
    destruct (status r =? 204); [| destruct (is_2xx _)]; auto with quiet.
  - unfold PartA.AppImpl_create, client_create. one_request.
  - unfold PartA.AppImpl_list, client_get. apply sends_once_then; intros; auto with quiet.
    repeat (apply quiet_bind; [auto using quiet_mapM with quiet | intros]).
    apply quiet_ret.
  - unfold PartA.AppImpl_get, client_get. one_request.
  - unfold PartA.AppImpl_update, client_update. one_request.
  - unfold PartA.AppImpl_delete_, client_delete. apply sends_once. intros r.
    destruct (status r =? 204); [| destruct (is_2xx _)]; auto with quiet.
Qed.

(** C8 as stated fails on the first revision: its create addresses [apps]
    and its get [apps/a1], neither rooted at a slash. *)
Lemma first_revision_endpoints_unrooted :
  map endpoint (requests_of (@PartA.AppImpl_create epoch_Date (scripted []) (JObj ∅))
                  empty_World) = ["apps"]
  /\ map endpoint (requests_of (@PartA.AppImpl_get epoch_Date (scripted []) "a1")
                     empty_World) = ["apps/a1"]
  /\ "apps" <> "/apps"
  /\ "apps/a1" <> "/apps/a1".
Proof. repeat split; first [reflexivity | discriminate]. Qed.

(** ** Strings *)

Lemma append_assoc (a b c : string) : ((a ++ b) ++ c = a ++ (b ++ c))%string.
Proof.
  induction a as [| ch a IH]; [reflexivity |].
  change (String ch ((a ++ b) ++ c) = String ch (a ++ (b ++ c)))%string.
  now rewrite IH.
Qed.

Lemma append_empty_r (a : string) : (a ++ "" = a)%string.
Proof.
  induction a as [| ch a IH]; [reflexivity |].
  change (String ch (a ++ "") = String ch a)%string. now rewrite IH.
Qed.

Lemma append_cons (ch : ascii) (a b : string) : String ch a ++ b = String ch (a ++ b).
Proof. reflexivity. Qed.

(** ** Filters as query parameters *)

Lemma to_lower_not_upper (ch : ascii) : is_upper ch = true -> is_upper (to_lower ch) = false.
Proof.
  destruct ch as [[] [] [] [] [] [] [] []]; vm_compute; intros E;
    first [reflexivity | discriminate E].
Qed.

Lemma paramCase_from_lowercase (s : string) (b : bool) :
  Forall (fun ch => is_upper ch = false) (list_ascii_of_string (paramCase_from b s)).
Proof.
  revert b. induction s as [| ch s IH]; intros b; cbn [paramCase_from].
  - apply Forall_nil_2.
  - destruct (is_upper ch) eqn:Hup.
    + destruct b; cbn [list_ascii_of_string];
        repeat (apply Forall_cons; split);
        first [reflexivity | now apply to_lower_not_upper | apply IH].
    + cbn [list_ascii_of_string]. apply Forall_cons. split; [exact Hup | apply IH].
Qed.

Lemma paramCase_from_id (s : string) (b : bool) :
  Forall (fun ch => is_upper ch = false) (list_ascii_of_string s) ->
  paramCase_from b s = s.
Proof.
  revert b. induction s as [| ch s IH]; intros b Hs; [reflexivity |].
  cbn [list_ascii_of_string] in Hs. apply Forall_cons in Hs as [Hch Hs].
  cbn [paramCase_from]. rewrite Hch. f_equal. now apply IH.
Qed.

Lemma word_char_not_upper (ch : ascii) : is_word_char ch = true -> is_upper ch = false.
Proof.
  destruct ch as [[] [] [] [] [] [] [] []]; vm_compute; intros E;
    first [reflexivity | discriminate E].
Qed.

Lemma to_upper_lower (ch : ascii) :
  is_lower ch = true -> is_upper (to_upper ch) = true /\ to_lower (to_upper ch) = ch.
Proof.
  destruct ch as [[] [] [] [] [] [] [] []]; vm_compute; intros E;
    first [split; reflexivity | discriminate E].
Qed.

Lemma paramCase_from_chars (w s : string) (b : bool) :
  forallb is_word_char (list_ascii_of_string w) = true ->
  paramCase_from b (w ++ s)
  = w ++ paramCase_from (match w with EmptyString => b | _ => true end) s.
Proof.
  revert b. induction w as [| ch w IH]; intros b Hw; [reflexivity |].
  cbn [list_ascii_of_string forallb] in Hw. apply andb_prop in Hw as [Hch Hw].
  rewrite !append_cons. cbn [paramCase_from].
  rewrite (word_char_not_upper ch Hch). fold (is_word_char ch). rewrite Hch.
  rewrite (IH true Hw). now destruct w.
Qed.

Lemma paramCase_from_word (w s : string) (b : bool) :
  is_word w = true ->
  paramCase_from b (w ++ s) = w ++ paramCase_from true s.
Proof.
  intros Hw. rewrite paramCase_from_chars.
  - destruct w; [discriminate Hw | reflexivity].
  - destruct w as [| ch w]; [discriminate Hw |].
    cbn [is_word] in Hw. apply andb_prop in Hw as [Hch Hw].
    cbn [list_ascii_of_string forallb]. rewrite Hw.
    unfold is_word_char. now rewrite Hch.
Qed.

Lemma paramCase_from_capitalized (w s : string) :
  is_word w = true -> (2 <= String.length w)%nat ->
  paramCase_from true (capitalize w ++ s) = "-" ++ w ++ paramCase_from true s.
Proof.
  intros Hw Hlen. destruct w as [| ch w]; [discriminate Hw |].
  cbn [is_word] in Hw. apply andb_prop in Hw as [Hch Hw].
  destruct (to_upper_lower ch Hch) as [Hup Hlow].
  cbn [capitalize]. rewrite !append_cons. cbn [paramCase_from]. rewrite Hup, Hlow.
  rewrite (paramCase_from_chars w s false Hw).
  destruct w; [cbn in Hlen; lia | reflexivity].
Qed.

Lemma paramCase_from_words (ws : list string) :
  Forall (fun w => is_word w = true /\ (2 <= String.length w)%nat) ws ->
  paramCase_from true (String.concat "" (map capitalize ws))
  = String.concat "" (map (String.append "-") ws).
Proof.
  induction 1 as [| w ws [Hw Hlen] _ IH]; [reflexivity |].
  assert (E : forall (x : string) xs,
            String.concat "" (x :: xs) = x ++ String.concat "" xs).
  { intros x [| y xs]; [apply eq_sym, append_empty_r | reflexivity]. }
  cbn [map]. rewrite !E, (paramCase_from_capitalized w _ Hw Hlen), IH.
  now rewrite append_assoc.
Qed.

Lemma concat_hyphen (w : string) (ws : list string) :
  String.concat "-" (w :: ws) = w ++ String.concat "" (map (String.append "-") ws).
Proof.
  revert w. induction ws as [| x ws IH]; intros w.
  - apply eq_sym, append_empty_r.
  - change (String.concat "-" (w :: x :: ws)) with (w ++ "-" ++ String.concat "-" (x :: ws)).
    rewrite IH. cbn [map].
    assert (E : forall (x : string) xs,
              String.concat "" (x :: xs) = x ++ String.concat "" xs).
    { intros y [| z xs]; [apply eq_sym, append_empty_r | reflexivity]. }
    rewrite E. now rewrite <- !append_assoc.
Qed.

Lemma paramCase_camelCase (w : string) (ws : list string) :
  is_word w = true ->
  Forall (fun x => is_word x = true /\ (2 <= String.length x)%nat) ws ->
  paramCase (camelCase (w :: ws)) = String.concat "-" (w :: ws).
Proof.
  intros Hw Hws. unfold paramCase, camelCase.
  now rewrite (paramCase_from_word w _ false Hw), (paramCase_from_words ws Hws), concat_hyphen.
Qed.
Lemma string_of_Z_digit (n : Z) :
  0 <= n < 10 -> string_of_Z n = String (digit_char n) "".
Proof.
  intros Hn. set (m := Z.to_nat n).
  assert (En : n = Z.of_nat m) by lia. assert (Hm : (m < 10)%nat) by lia.
  clearbody m. subst n.
  do 10 (destruct m as [| m]; [reflexivity |]). lia.
Qed.

Lemma string_of_uint_app (a b : Decimal.uint) :
  NilEmpty.string_of_uint (Decimal.app a b)
  = NilEmpty.string_of_uint a ++ NilEmpty.string_of_uint b.
Proof.
  rewrite <- (DecimalFacts.of_list_to_list (Decimal.app a b)), DecimalFacts.app_spec.
  rewrite <- (DecimalFacts.of_list_to_list a) at 2.
  induction (DecimalFacts.to_list a) as [| d l IH].
  - cbn [app DecimalFacts.of_list]. now rewrite DecimalFacts.of_list_to_list.
  - cbn [app DecimalFacts.of_list].
    destruct d; cbn [NilEmpty.string_of_uint]; rewrite append_cons; f_equal; exact IH.
Qed.

Lemma to_uint_normal (q : positive) :
  exists d l, DecimalFacts.to_list (Pos.to_uint q) = d :: l /\ d <> DecimalFacts.d0.
Proof.
  pose proof (DecimalPos.Unsigned.to_of (Pos.to_uint q)) as E.
  rewrite DecimalPos.Unsigned.of_to in E. cbn [N.to_uint] in E.
  pose proof (DecimalPos.Unsigned.to_uint_nonzero q) as Hnz.
  assert (Hh : Decimal.nzhead (Pos.to_uint q) <> Decimal.Nil).
  { intros Hh. apply DecimalFacts.unorm_0 in Hh. congruence. }
  rewrite (DecimalFacts.unorm_nzhead _ Hh) in E.
  destruct (Pos.to_uint q) as [| u | u | u | u | u | u | u | u | u | u] eqn:Eq;
    try (eexists _, _; split; [reflexivity | discriminate]).
  - contradiction.
  - exfalso. rewrite DecimalFacts.nzhead_D0 in E.
    exact (DecimalFacts.nzhead_nonzero _ _ (eq_sym E)).
Qed.

Lemma digit_uint_spec (r : Z) :
  0 <= r < 10 ->
  exists d, DecimalFacts.to_list (digit_uint r) = [d]
            /\ DecimalPos.Unsigned.hd (digit_uint r) = Z.to_N r
            /\ DecimalPos.Unsigned.tl (digit_uint r) = Decimal.Nil
            /\ string_of_Z r = NilEmpty.string_of_uint (digit_uint r).
Proof.
  intros Hr. set (m := Z.to_nat r).
  assert (Er : r = Z.of_nat m) by lia. assert (Hm : (m < 10)%nat) by lia.
  clearbody m. subst r.
  do 10 (destruct m as [| m]; [eexists; repeat split; reflexivity |]). lia.
Qed.

Lemma to_uint_tenfold (q : positive) (r : Z) :
  0 <= r < 10 ->
  Pos.to_uint (Z.to_pos (10 * Z.pos q + r)) = Decimal.app (Pos.to_uint q) (digit_uint r).
Proof.
  intros Hr. set (d := Decimal.app (Pos.to_uint q) (digit_uint r)).
  destruct (digit_uint_spec r Hr) as (dr & Hdr & Hhd & Htl & _).
  destruct (to_uint_normal q) as (d1 & l & Hq & Hd1).
  assert (Hof : Pos.of_uint d = N.pos (Z.to_pos (10 * Z.pos q + r))).
  { rewrite DecimalPos.Unsigned.of_uint_alt.
    assert (Hrev : Decimal.rev d
                   = DecimalFacts.of_list
                       (dr :: DecimalFacts.to_list (Decimal.rev (Pos.to_uint q)))).
    { apply DecimalFacts.to_list_inj.
      rewrite DecimalFacts.to_list_of_list, !DecimalFacts.rev_spec.
      unfold d. rewrite DecimalFacts.app_spec, Hdr, List.rev_app_distr. reflexivity. }
    rewrite Hrev, DecimalPos.Unsigned.of_lu_eqn.
    assert (Hh : DecimalPos.Unsigned.hd
                   (DecimalFacts.of_list
                      (dr :: DecimalFacts.to_list (Decimal.rev (Pos.to_uint q))))
                 = Z.to_N r
                 /\ DecimalPos.Unsigned.tl
                      (DecimalFacts.of_list
                         (dr :: DecimalFacts.to_list (Decimal.rev (Pos.to_uint q))))
                    = Decimal.rev (Pos.to_uint q)).
    { rewrite <- Hhd. clear Hhd Htl.
      destruct (digit_uint r) as [| u | u | u | u | u | u | u | u | u | u];
        cbn in Hdr; try discriminate Hdr;
        destruct u; try discriminate Hdr; injection Hdr as <-;
        cbn [DecimalFacts.of_list DecimalPos.Unsigned.hd DecimalPos.Unsigned.tl];
        rewrite DecimalFacts.of_list_to_list; split; reflexivity. }
    destruct Hh as [-> ->].
    rewrite <- DecimalPos.Unsigned.of_uint_alt, DecimalPos.Unsigned.of_to. lia. }
  assert (Hn : Decimal.unorm d = d).
  { apply DecimalFacts.to_list_inj. rewrite DecimalFacts.unorm_spec.
    unfold d. rewrite DecimalFacts.app_spec, Hq.
    destruct d1; first [reflexivity | exfalso; apply Hd1; reflexivity]. }
  rewrite <- Hn, <- DecimalPos.Unsigned.to_of, Hof. reflexivity.
Qed.

Lemma string_of_Z_pos (q : positive) :
  string_of_Z (Z.pos q) = NilEmpty.string_of_uint (Pos.to_uint q).
Proof.
  unfold string_of_Z. cbn [Z.to_int NilZero.string_of_int].
  pose proof (DecimalPos.Unsigned.to_uint_nonnil q) as Hq.
  unfold NilZero.string_of_uint. destruct (Pos.to_uint q); [contradiction | reflexivity ..].
Qed.

Lemma string_of_Z_tenfold (n : Z) :
  10 <= n -> string_of_Z n = string_of_Z (n / 10) ++ string_of_Z (n mod 10).
Proof.
  intros Hn.
  assert (Hr : 0 <= n mod 10 < 10) by (apply Z.mod_pos_bound; lia).
  assert (Hq : 0 < n / 10) by (apply Z.div_str_pos; lia).
  destruct (n / 10) as [| q |] eqn:Eq; try lia.
  assert (En : n = Z.pos (Z.to_pos (10 * Z.pos q + n mod 10))).
  { rewrite Z2Pos.id by lia. rewrite <- Eq. apply Z.div_mod. lia. }
  rewrite En at 1. rewrite !string_of_Z_pos, (to_uint_tenfold q _ Hr), string_of_uint_app.
  destruct (digit_uint_spec _ Hr) as (_ & _ & _ & _ & ->). reflexivity.
Qed.

Lemma string_of_Z_neg (n : Z) : n < 0 -> string_of_Z n = "-" ++ string_of_Z (- n).
Proof.
  intros Hn. destruct n as [| p | p]; try lia.
  change (- Z.neg p) with (Z.pos p). rewrite string_of_Z_pos.
  unfold string_of_Z. cbn [Z.to_int NilZero.string_of_int].
  pose proof (DecimalPos.Unsigned.to_uint_nonnil p) as Hp.
  unfold NilZero.string_of_uint. destruct (Pos.to_uint p); [contradiction | reflexivity ..].
Qed.

Lemma concat_comma_snoc (tags : list string) (t : string) :
  tags <> [] ->
  String.concat "," (tags ++ [t])%list = String.concat "," tags ++ "," ++ t.
Proof.
  induction tags as [| x tags IH]; intros Hne; [contradiction |].
  destruct tags as [| y tags]; [reflexivity |].
  change (String.concat "," ((x :: y :: tags) ++ [t])%list)
    with (x ++ "," ++ String.concat "," ((y :: tags) ++ [t])%list).
  rewrite IH by discriminate.
  change (String.concat "," (x :: y :: tags))
    with (x ++ "," ++ String.concat "," (y :: tags)).
  now rewrite !append_assoc.
Qed.

(** C5: the i-th filter entry becomes the i-th query parameter, named by the
    lowercase-hyphenated form of its key and carrying the string form of its
    value.  The name has no capital letter, and a camel-case key made of
    words is its words joined by hyphens (a single word is left as it is), so
    that [pageSize] and [nextPageToken] become [page-size] and
    [next-page-token].  A string serializes as itself, a boolean as [true] or
    [false], an integer as its decimal numeral: one digit below ten, the
    numeral of the tenth followed by the last digit from ten on, a minus sign
    before the numeral of the opposite below zero.  The all-of matcher
    serializes as [all:] and its strings separated by commas, [all:tag1,tag2]
    for [tag1; tag2].  A listing request carries exactly these parameters. *)
Theorem filter_query_encoding (c : HttpClient) (w : World) (ep : string)
    (filter : Filter) :
  length (query_of (Some filter)) = length filter
  /\ (forall i k v, filter !! i = Some (k, v) ->
        query_of (Some filter) !! i = Some (paramCase k, serialize v))
  /\ (forall k, Forall (fun ch => is_upper ch = false)
                  (list_ascii_of_string (paramCase k)))
  /\ (forall word words,
        is_word word = true ->
        Forall (fun x => is_word x = true /\ (2 <= String.length x)%nat) words ->
        paramCase (camelCase (word :: words)) = String.concat "-" (word :: words))
  /\ paramCase "pageSize" = "page-size"
  /\ paramCase "nextPageToken" = "next-page-token"
  /\ (forall s, serialize (MStr s) = s)
  /\ (forall n, 0 <= n < 10 -> serialize (MNum n) = String (digit_char n) "")
  /\ (forall n, 10 <= n -> is_safe_integer n = true ->
        serialize (MNum n) = serialize (MNum (n / 10)) ++ serialize (MNum (n mod 10)))
  /\ (forall n, n < 0 -> is_safe_integer n = true ->
        serialize (MNum n) = "-" ++ serialize (MNum (- n)))
  /\ serialize (MBool true) = "true"
  /\ serialize (MBool false) = "false"
  /\ (forall t, serialize (MAll [t]) = "all:" ++ t)
  /\ (forall tags t, tags <> [] ->
        serialize (MAll (tags ++ [t])) = serialize (MAll tags) ++ "," ++ t)
  /\ serialize (MAll ["tag1"; "tag2"]) = "all:tag1,tag2"
  /\ query_of (Some [("owner", MStr "i0"); ("creator", MStr "i1");
                     ("tags", MAll ["tag1"; "tag2"]);
                     ("pageSize", MNum 2); ("nextPageToken", MStr "b0a5cb1e")])
     = [("owner", "i0"); ("creator", "i1"); ("tags", "all:tag1,tag2");
        ("page-size", "2"); ("next-page-token", "b0a5cb1e")]
  /\ requests_of (client_get c ep (Some filter)) w
     = (sent w ++ [mkRequest GET ep (query_of (Some filter)) NoBody])%list.
Proof.
  split; [cbn [query_of]; apply length_map |].
  split.
  { intros i k v Hi. cbn [query_of]. rewrite list_lookup_fmap, Hi. reflexivity. }
  split; [intros k; apply paramCase_from_lowercase |].
  split; [apply paramCase_camelCase |].
  do 3 (split; [reflexivity |]).
  split; [intros n Hn; apply (string_of_Z_digit n Hn) |].
  split; [intros n Hn _; apply (string_of_Z_tenfold n Hn) |].
  split; [intros n Hn _; apply (string_of_Z_neg n Hn) |].
  do 3 (split; [reflexivity |]).
  split.
  { intros tags t Hne. cbn [serialize].
    now rewrite (concat_comma_snoc tags t Hne), append_assoc. }
  do 2 (split; [reflexivity |]).
  unfold client_get. apply sends_once. auto with quiet.
Qed.

Lemma filter_query_encoding_witness :
  paramCase (camelCase ["next"; "page"; "token"])
  = String.concat "-" ["next"; "page"; "token"]
  /\ paramCase (camelCase ["sha256"; "sum"]) = String.concat "-" ["sha256"; "sum"]
  /\ paramCase (camelCase ["owner"]) = String.concat "-" ["owner"]
  /\ serialize (MNum 7) = String (digit_char 7) ""
  /\ serialize (MNum 250) = serialize (MNum (250 / 10)) ++ serialize (MNum (250 mod 10))
  /\ serialize (MNum (-25)) = "-" ++ serialize (MNum (- -25))
  /\ serialize (MAll (["tag1"; "tag2"] ++ ["tag3"]))
     = serialize (MAll ["tag1"; "tag2"]) ++ "," ++ "tag3".
Proof.
  destruct (filter_query_encoding (scripted []) empty_World "/datasets" [])
    as (_ & _ & _ & Hcamel & _ & _ & _ & Hdigit & Hten & Hneg & _ & _ & _
        & Hsnoc & _).
  do 3 (split;
        [apply Hcamel; [reflexivity |];
         repeat (apply Forall_cons; split; [split; [reflexivity | cbn; lia] |]);
         apply Forall_nil_2 |]).
  split; [apply Hdigit; lia |].
  split; [apply Hten; [lia | reflexivity] |].
  split; [apply Hneg; [lia | reflexivity] |].
  apply Hsnoc. discriminate.
Defined.

(** ** Download *)

Lemma pipe_aborts {S} `{Writable S} (pre post : list string) (chunk : string)
    (sink sink1 sink2 : S) (e : error) :
  pipe pre sink = (None, sink1) ->
  write chunk sink1 = (Some e, sink2) ->
  pipe (pre ++ chunk :: post) sink = (Some e, sink2).
Proof.
  revert sink. induction pre as [| c0 pre IH]; intros sink Hpre Hw.
  - cbn in Hpre. inversion Hpre; subst sink1. cbn [app pipe]. now rewrite Hw.
  - cbn [app pipe] in *. destruct (write c0 sink) as [[e0 |] s0]; [discriminate |].
    now apply IH.
Qed.

Lemma pipeTo_rejects_status {S} `{Writable S} (c : HttpClient) (id : string)
    (sink : S) (w : World) :
  is_2xx (status (gateway c (sent w) (download_request id))) = false ->
  (pipeTo c id sink w).1
  = (Rejected (RequestError (status (gateway c (sent w) (download_request id)))), sink).
Proof.
  intros Hs. unfold pipeTo. fold (download_request id).
  destruct (Z.eqb_spec (status (gateway c (sent w) (download_request id))) 200)
    as [E | E]; [| reflexivity].
  rewrite E in Hs. discriminate.
Qed.

(** C6: a download answered with a status outside 2xx rejects with the
    sink exactly as it was, no write having been made; and when the sink
    reports a failure on some chunk, after acknowledging the chunks before
    it, [pipeTo] rejects with that very failure and writes no later chunk. *)
Theorem download_failure_modes {S} `{Writable S} (c : HttpClient) (id : string)
    (sink : S) (w : World) :
  let r := gateway c (sent w) (download_request id) in
  (is_2xx (status r) = false ->
     (pipeTo c id sink w).1 = (Rejected (RequestError (status r)), sink))
  /\ (forall pre chunk post sink1 sink2 e,
        status r = 200 ->
        chunks r = (pre ++ chunk :: post)%list ->
        pipe pre sink = (None, sink1) ->
        write chunk sink1 = (Some e, sink2) ->
        (pipeTo c id sink w).1 = (Rejected e, sink2)).
Proof.
  intros r. split.
  - apply pipeTo_rejects_status.
  - intros pre chunk post sink1 sink2 e Hs Hc Hpre Hw.
    unfold pipeTo. fold (download_request id). fold r.
    rewrite Hs, Hc. cbn [Z.eqb Pos.eqb].
    now rewrite (pipe_aborts pre post chunk sink sink1 sink2 e Hpre Hw).
Qed.

Lemma download_failure_modes_witness :
  let whoops := UserError "whoops" in
  ((pipeTo (scripted [mkResponse 404 ["not found"] None]) "d1"
      (mkDownloadCollector None []) empty_World).1
   = (Rejected (RequestError 404), mkDownloadCollector None []))
  /\ ((pipeTo (scripted [mkResponse 200 ["fixture "; "data"] None]) "d1"
         (mkDownloadCollector (Some whoops) []) empty_World).1
      = (Rejected whoops, mkDownloadCollector (Some whoops) [])).
Proof.
  intros whoops. split.
  - apply (proj1 (download_failure_modes (scripted [mkResponse 404 ["not found"] None])
                    "d1" (mkDownloadCollector None []) empty_World)).
    reflexivity.
  - apply (proj2 (download_failure_modes
                    (scripted [mkResponse 200 ["fixture "; "data"] None]) "d1"
                    (mkDownloadCollector (Some whoops) []) empty_World)
             [] "fixture " ["data"] (mkDownloadCollector (Some whoops) [])
             (mkDownloadCollector (Some whoops) []) whoops);
      reflexivity.
Defined.

(** ** Upload *)

Lemma quiet_new_Dataset `{JSDate} c pod : quiet (new_Dataset c pod).
Proof. destruct pod; first [apply quiet_throw | apply quiet_alloc]. Qed.

Lemma uploadDataset_resolved `{JSDate} c data params w pod :
  status (gateway c (sent w) (upload_request data params)) = 201 ->
  rjson (gateway c (sent w) (upload_request data params)) = Some pod ->
  pod <> JNull ->
  uploadDataset c data params w
  = (Resolved (length (heap w)),
     mkWorld (heap w ++ [Resource_constructor c pod])
             (sent w ++ [upload_request data params])).
Proof.
  intros Hs Hj Hpod. unfold uploadDataset.
  assert (G : client_upload c DATASETS_EP (upload_parts data params) w
              = (Resolved pod,
                 mkWorld (heap w) (sent w ++ [upload_request data params]))).
  { unfold client_upload. fold (upload_request data params).
    rewrite (bind_step _ _ _ _ _ (send_spec _ _ _)).
    rewrite Hs, Hj. reflexivity. }
  rewrite (bind_step _ _ _ _ _ G).
  destruct pod; [contradiction | reflexivity ..].
Qed.

(** C7: an upload sends one multipart request.  Among its parts is exactly
    one named [data], the payload declared application/octet-stream, and no
    part has a name other than [data] and [metadata].  A part named
    [metadata] is present if and only if the upload parameters were given and
    hold metadata; it is then the first part, declared application/json, and
    its JSON is the object whose [metadata] is the very metadata supplied.
    Without metadata the [data] part is the only one.  When the gateway
    answers 201 with a snapshot, the handle resolves with a fresh Dataset
    constructed from that snapshot. *)
Theorem upload_is_multipart `{JSDate} (c : HttpClient) (data : string)
    (params : option UploadParams) (w : World) :
  let parts := upload_parts data params in
  let req := mkRequest POST "/datasets" [] (Multipart parts) in
  let data_part := mkPart "data" "application/octet-stream" (CBytes data) in
  let metadata_part md :=
    mkPart "metadata" "application/json" (CJson (JObj {[ "metadata" := md ]})) in
  requests_of (uploadDataset c data params) w = (sent w ++ [req])%list
  /\ data_part ∈ parts
  /\ (forall p, p ∈ parts -> part_name p = "data" -> p = data_part)
  /\ (forall p, p ∈ parts -> part_name p = "data" \/ part_name p = "metadata")
  /\ ((exists p, p ∈ parts /\ part_name p = "metadata")
      <-> (exists q md, params = Some q /\ metadata q = Some md))
  /\ (forall q md, params = Some q -> metadata q = Some md ->
        parts = [metadata_part md; data_part])
  /\ (params = None -> parts = [data_part])
  /\ (forall q, params = Some q -> metadata q = None -> parts = [data_part])
  /\ (forall pod,
        status (gateway c (sent w) req) = 201 ->
        rjson (gateway c (sent w) req) = Some pod ->
        pod <> JNull ->
        uploadDataset c data params w
        = (Resolved (length (heap w)),
           mkWorld (heap w ++ [Resource_constructor c pod]) (sent w ++ [req]))).
Proof.
  intros parts req data_part metadata_part. subst parts req.
  split.
  { unfold uploadDataset, client_upload.
    apply sends_once_then.
    - intros r. destruct (is_2xx _); [destruct (rjson r) |]; auto with quiet.
    - intros pod. apply quiet_new_Dataset. }
  assert (Hres : forall pod,
            status (gateway c (sent w)
                      (mkRequest POST "/datasets" [] (Multipart (upload_parts data params))))
            = 201 ->
            rjson (gateway c (sent w)
                     (mkRequest POST "/datasets" [] (Multipart (upload_parts data params))))
            = Some pod ->
            pod <> JNull ->
            uploadDataset c data params w
            = (Resolved (length (heap w)),
               mkWorld (heap w ++ [Resource_constructor c pod])
                 (sent w ++ [mkRequest POST "/datasets" []
                               (Multipart (upload_parts data params))]))).
  { intros pod Hs Hj Hpod. now apply uploadDataset_resolved. }
  revert Hres.
  destruct params as [[[md |]] |]; unfold upload_parts;
    cbn [supplied_metadata metadata app]; fold data_part; intros Hres.
  - fold (metadata_part md).
    split; [apply list_elem_of_further, list_elem_of_here |].
    split.
    { intros p Hp Hname. apply elem_of_cons in Hp as [-> | Hp].
      - discriminate Hname.
      - now apply list_elem_of_singleton in Hp. }
    split.
    { intros p Hp. apply elem_of_cons in Hp as [-> | Hp]; [now right |].
      apply list_elem_of_singleton in Hp. subst p. now left. }
    split.
    { split; [intros _; now exists (mkUploadParams (Some md)), md |].
      intros _. exists (metadata_part md). split; [apply list_elem_of_here | reflexivity]. }
    split.
    { intros q md' Hq Hmd. injection Hq as <-. cbn in Hmd. injection Hmd as <-.
      reflexivity. }
    split; [discriminate |].
    split; [| exact Hres].
    intros q Hq Hmd. injection Hq as <-. discriminate Hmd.
  - split; [apply list_elem_of_here |].
    split. { intros p Hp _. now apply list_elem_of_singleton in Hp. }
    split. { intros p Hp. apply list_elem_of_singleton in Hp. subst p. now left. }
    split.
    { split.
      - intros (p & Hp & Hname). apply list_elem_of_singleton in Hp. subst p.
        discriminate Hname.
      - intros (q & md & Hq & Hmd). injection Hq as <-. discriminate Hmd. }
    split.
    { intros q md Hq Hmd. injection Hq as <-. discriminate Hmd. }
    split; [discriminate |].
    split; [reflexivity | exact Hres].
  - split; [apply list_elem_of_here |].
    split. { intros p Hp _. now apply list_elem_of_singleton in Hp. }
    split. { intros p Hp. apply list_elem_of_singleton in Hp. subst p. now left. }
    split.
    { split.
      - intros (p & Hp & Hname). apply list_elem_of_singleton in Hp. subst p.
        discriminate Hname.
      - intros (q & md & Hq & _). discriminate Hq. }
    split; [discriminate |].
    split; [reflexivity |].
    split; [discriminate | exact Hres].
Qed.

Lemma upload_is_multipart_witness :
  let c := scripted [mkResponse 201 [] (Some fixtureDataset)] in
  let params := Some (mkUploadParams (Some fixtureMetadata)) in
  let parts :=
    [mkPart "metadata" "application/json" (CJson (JObj {[ "metadata" := fixtureMetadata ]}));
     mkPart "data" "application/octet-stream" (CBytes "fixture data")] in
  upload_parts "fixture data" params = parts
  /\ @uploadDataset epoch_Date c "fixture data" params empty_World
     = (Resolved 0%nat,
        mkWorld [@Resource_constructor epoch_Date c fixtureDataset]
                [mkRequest POST "/datasets" [] (Multipart parts)]).
Proof.
  intros c params parts.
  destruct (@upload_is_multipart epoch_Date c "fixture data" params empty_World)
    as (_ & _ & _ & _ & _ & Hparts & _ & _ & Hres).
  split.
  - apply (Hparts (mkUploadParams (Some fixtureMetadata)) fixtureMetadata);
      reflexivity.
  - apply Hres; [reflexivity | reflexivity | discriminate].
Defined.

(** With the collector of the unit tests: nothing is collected from a
    download answered 404, and the collector's own failure comes back. *)
Lemma collector_receives_nothing (c : HttpClient) (id : string) (w : World) :
  is_2xx (status (gateway c (sent w) (download_request id))) = false ->
  collectedDownload (pipeTo c id (mkDownloadCollector None []) w).1.2 = "".
Proof.
  intros Hs. now rewrite (pipeTo_rejects_status c id _ w Hs).
Qed.

Lemma collector_failure_verbatim (c : HttpClient) (id : string) (w : World)
    (e : error) (chunk : string) (rest : list string) :
  status (gateway c (sent w) (download_request id)) = 200 ->
  chunks (gateway c (sent w) (download_request id)) = chunk :: rest ->
  (pipeTo c id (mkDownloadCollector (Some e) []) w).1.1 = Rejected e.
Proof.
  intros Hs Hc. unfold pipeTo. fold (download_request id).
  rewrite Hs, Hc. reflexivity.
Qed.

(** ** The second revision *)

(** The second revision's constructor copies its own field list the same way. *)
Lemma App_constructor_lookup_B `{JSDate} (client : HttpClient) (pod : json) (k : string) :
  k ∈ names PartB.PODApp -> k <> "createdAt" ->
  PartB.App_constructor client pod !! k = Some (prop pod k).
Proof.
  revert k.
  apply (for_each (fun k => k <> "createdAt" ->
                     PartB.App_constructor client pod !! k = Some (prop pod k))).
  list_literal (names PartB.PODApp).
  each_name ltac:(intros Hne; first [reflexivity | exfalso; apply Hne; reflexivity]).
Qed.

Lemma App_constructor_createdAt_B `{JSDate} (client : HttpClient) (pod : json) :
  PartB.App_constructor client pod !! "createdAt"
  = Some (new_Date (prop pod "createdAt")).
Proof. reflexivity. Qed.

(** * Further properties *)

Lemma fold_left_map {A B C} (f : A -> B -> A) (g : C -> B) (l : list C) (a : A) :
  fold_left f (map g l) a = fold_left (fun acc x => f acc (g x)) l a.
Proof. revert a. induction l as [| x l IH]; intros a; [reflexivity | apply IH]. Qed.

Lemma settled_eq (schema : Schema) :
  settled schema
  = match allOf schema with
    | Some nested => mergeAllOf nested
    | None => schema
    end.
Proof. destruct schema as [r p [nested |]]; reflexivity. Qed.

Lemma mergeAllOf_unfold (allOfs : list Schema) :
  mergeAllOf allOfs = mergeAllOf_loop mergeAllOf allOfs.
Proof.
  unfold mergeAllOf at 1, merged, mergeAllOf_loop. rewrite fold_left_map.
  assert (E : forall acc,
    fold_left (fun acc x => merge_into acc (settled x)) allOfs acc
    = fold_left (fun acc schema => merge_into acc
        match allOf schema with Some nested => mergeAllOf nested | None => schema end)
        allOfs acc).
  { induction allOfs as [| s l IH]; intros acc; [reflexivity |].
    cbn [fold_left]. rewrite settled_eq. apply IH. }
  now rewrite E.
Qed.

(** ** [mergeAllOf] *)

Lemma elem_of_Set_add (s : list string) (x y : string) :
  y ∈ Set_add s x <-> y ∈ s \/ y = x.
Proof.
  unfold Set_add. case_bool_decide as Hx.
  - split; [auto |]. intros [Hy | ->]; assumption.
  - rewrite elem_of_app, list_elem_of_singleton. reflexivity.
Qed.

Lemma NoDup_Set_add (s : list string) (x : string) : NoDup s -> NoDup (Set_add s x).
Proof.
  intros Hs. unfold Set_add. case_bool_decide as Hx; [exact Hs |].
  apply NoDup_app. split; [exact Hs |]. split.
  - intros y Hy Hyx. apply list_elem_of_singleton in Hyx. subst y. contradiction.
  - apply NoDup_singleton.
Qed.

Lemma elem_of_adds (xs acc : list string) (y : string) :
  y ∈ fold_left Set_add xs acc <-> y ∈ acc \/ y ∈ xs.
Proof.
  revert acc. induction xs as [| x xs IH]; intros acc; cbn [fold_left].
  - rewrite elem_of_nil. tauto.
  - rewrite IH, elem_of_Set_add, elem_of_cons. tauto.
Qed.

Lemma NoDup_adds (xs acc : list string) :
  NoDup acc -> NoDup (fold_left Set_add xs acc).
Proof.
  revert acc. induction xs as [| x xs IH]; intros acc Hacc; [exact Hacc |].
  cbn [fold_left]. apply IH. now apply NoDup_Set_add.
Qed.

Lemma adds_snoc (xs acc : list string) (x : string) :
  fold_left Set_add (xs ++ [x]) acc = Set_add (fold_left Set_add xs acc) x.
Proof. now rewrite fold_left_app. Qed.

Lemma Set_add_present (s : list string) (x : string) : x ∈ s -> Set_add s x = s.
Proof. intros Hx. unfold Set_add. now rewrite bool_decide_eq_true_2. Qed.

(** Adding the names of a set, in its order, is adding the names it was built from. *)
Lemma adds_of_set (xs acc : list string) :
  fold_left Set_add (fold_left Set_add xs []) acc = fold_left Set_add xs acc.
Proof.
  induction xs as [| x xs IH] using rev_ind; [reflexivity |].
  rewrite !adds_snoc.
  destruct (decide (x ∈ xs)) as [Hx | Hx].
  - rewrite (Set_add_present (fold_left Set_add xs [])) by (apply elem_of_adds; auto).
    rewrite (Set_add_present (fold_left Set_add xs acc)) by (apply elem_of_adds; auto).
    exact IH.
  - unfold Set_add at 2. rewrite bool_decide_eq_false_2.
    + rewrite adds_snoc. now rewrite IH.
    + rewrite elem_of_adds, elem_of_nil. tauto.
Qed.

Lemma adds_NoDup (xs : list string) : NoDup xs -> fold_left Set_add xs [] = xs.
Proof.
  induction xs as [| x xs IH] using rev_ind; intros Hxs; [reflexivity |].
  apply NoDup_app in Hxs as (Hxs & Hx & _).
  rewrite adds_snoc, IH by exact Hxs. unfold Set_add.
  rewrite bool_decide_eq_false_2; [reflexivity |].
  intros Hin. apply (Hx x Hin). apply list_elem_of_here.
Qed.


Lemma fold_merge_into (schemas : list Schema) (acc : list string * gmap string json) :
  fold_left merge_into schemas acc
  = (fold_left Set_add (required_names schemas) acc.1,
     (fold_left merge_into schemas ([], ∅)).2 ∪ acc.2).
Proof.
  revert acc. induction schemas as [| s l IH]; intros [req props].
  - cbn. now rewrite (left_id_L ∅ (∪)).
  - cbn [fold_left]. rewrite IH. rewrite (IH (merge_into ([], ∅) s)).
    unfold merge_into, required_names. cbn [fst snd map concat].
    rewrite fold_left_app. f_equal.
    rewrite (right_id_L ∅ (∪)). now rewrite (assoc_L (∪)).
Qed.

Lemma fold_merge_into_fst (schemas : list Schema) (acc : list string * gmap string json) :
  (fold_left merge_into schemas acc).1
  = fold_left Set_add (required_names schemas) acc.1.
Proof. now rewrite fold_merge_into. Qed.

Lemma fold_merge_into_snd (schemas : list Schema) (acc : list string * gmap string json) :
  (fold_left merge_into schemas acc).2
  = (fold_left merge_into schemas ([], ∅)).2 ∪ acc.2.
Proof. now rewrite fold_merge_into. Qed.

Lemma merge_into_snd (acc : list string * gmap string json) (schema : Schema) :
  (merge_into acc schema).2 = properties schema ∪ acc.2.
Proof. reflexivity. Qed.

Lemma merge_into_merged (schemas : list Schema) (acc : list string * gmap string json) :
  merge_into acc (merged schemas) = fold_left merge_into schemas acc.
Proof.
  rewrite (surjective_pairing (fold_left merge_into schemas acc)).
  rewrite fold_merge_into_fst, fold_merge_into_snd.
  unfold merge_into at 1. unfold merged. cbn [required properties from_option id].
  now rewrite fold_merge_into_fst, adds_of_set.
Qed.

Lemma mergeAllOf_required_eq (allOfs : list Schema) :
  required (mergeAllOf allOfs)
  = Some (fold_left Set_add (required_names (map settled allOfs)) []).
Proof.
  unfold mergeAllOf, merged. now rewrite fold_merge_into.
Qed.

(** X13: the names [mergeAllOf] requires are free of duplicates, and they are
    exactly the names required by some member, a member that has an [allOf]
    counting as the merge of its [allOf]. *)
Theorem mergeAllOf_required (allOfs : list Schema) :
  exists req,
    required (mergeAllOf allOfs) = Some req
    /\ NoDup req
    /\ forall x,
         x ∈ req
         <-> exists schema,
               schema ∈ allOfs
               /\ x ∈ default []
                    (required match allOf schema with
                              | Some nested => mergeAllOf nested
                              | None => schema
                              end).
Proof.
  eexists. split; [apply mergeAllOf_required_eq |]. split.
  - apply NoDup_adds, NoDup_nil_2.
  - intros x. rewrite elem_of_adds, elem_of_nil. unfold required_names.
    rewrite list_elem_of_In, in_concat. split.
    + intros [[] | (names & Hnames & Hx)].
      apply in_map_iff in Hnames as (s' & <- & Hs').
      apply in_map_iff in Hs' as (s & <- & Hs).
      exists s. rewrite <- settled_eq. split; apply list_elem_of_In; assumption.
    + intros (s & Hs & Hx). right. rewrite <- settled_eq in Hx.
      exists (default [] (required (settled s))). split.
      * apply in_map_iff. exists (settled s). split; [reflexivity |].
        apply in_map. now apply list_elem_of_In.
      * now apply list_elem_of_In.
Qed.

(** X14: an [allOf] nested in a member can be inlined in its place: the
    member's own [required] and [properties] play no part, and a member with
    an empty [allOf] contributes nothing. *)
Theorem mergeAllOf_flattens (before after nested : list Schema)
    (req : option (list string)) (props : gmap string json) :
  mergeAllOf (before ++ mkSchema req props (Some nested) :: after)
  = mergeAllOf (before ++ nested ++ after).
Proof.
  unfold mergeAllOf, merged. rewrite !map_app. cbn [map settled].
  rewrite !fold_left_app. cbn [fold_left].
  now rewrite merge_into_merged.
Qed.

(** X15: of two members that define the same property the later one wins,
    and a property only earlier members define is kept. *)
Theorem mergeAllOf_later_wins (allOfs : list Schema) (req : option (list string))
    (props : gmap string json) (k : string) :
  properties (mergeAllOf (allOfs ++ [mkSchema req props None])) !! k
  = match props !! k with
    | Some v => Some v
    | None => properties (mergeAllOf allOfs) !! k
    end.
Proof.
  unfold mergeAllOf, merged. rewrite map_app, fold_left_app. cbn [map settled fold_left].
  rewrite merge_into_snd. cbn [properties].
  destruct (props !! k) as [v |] eqn:Hk.
  - now apply lookup_union_Some_l.
  - now rewrite lookup_union_r.
Qed.

(** X16: merging the result of a merge changes nothing. *)
Theorem mergeAllOf_idempotent (allOfs : list Schema) :
  mergeAllOf [mergeAllOf allOfs] = mergeAllOf allOfs.
Proof.
  unfold mergeAllOf. set (X := map settled allOfs). cbn [map].
  change (settled (merged X)) with (merged X).
  unfold merged at 1. cbn [fold_left]. now rewrite merge_into_merged.
Qed.

(** ** [getQueryParametersSchema] *)



Lemma getQueryParametersSchema_found paths method endpoint declared :
  describes paths method endpoint declared ->
  getQueryParametersSchema paths method endpoint
  = match query_params declared with
    | [] => Rejected TypeError
    | [p] => Resolved (p_schema p)
    | params => Resolved (mergeAllOf (map p_schema params))
    end.
Proof.
  intros (operations & Hp & Ho). unfold getQueryParametersSchema.
  rewrite Hp, Ho. cbn [parameters]. fold (query_params declared).
  destruct (query_params declared) as [| p [| q rest]]; reflexivity.
Qed.

(** X17: parameters that are not query parameters never contribute; with no
    query parameter the helper throws; a single query parameter's schema is
    returned as declared, its [allOf] unmerged; only two or more are merged,
    and then the result has no [allOf]. *)
Theorem getQueryParametersSchema_cases (paths : gmap string (gmap string Operation))
    (method : verb) (endpoint : string) (declared : list ApiParameter) :
  describes paths method endpoint declared ->
  let result := getQueryParametersSchema paths method endpoint in
  (result
   = getQueryParametersSchema
       {[ endpoint := {[ toLowerCase method := mkOperation (Some (query_params declared)) ]} ]}
       method endpoint)
  /\ (query_params declared = [] -> result = Rejected TypeError)
  /\ (forall p, query_params declared = [p] -> result = Resolved (p_schema p))
  /\ ((2 <= length (query_params declared))%nat ->
      exists merged_schema,
        result = Resolved merged_schema
        /\ merged_schema = mergeAllOf (map p_schema (query_params declared))
        /\ allOf merged_schema = None).
Proof.
  intros Hd result. subst result.
  rewrite (getQueryParametersSchema_found _ _ _ _ Hd).
  split; [| split; [| split]].
  - rewrite (getQueryParametersSchema_found _ method endpoint (query_params declared)).
    + unfold query_params at 2. unfold query_params at 2.
      assert (E : forall l : list ApiParameter,
        List.filter (fun p => String.eqb (p_in p) "query")
          (List.filter (fun p => String.eqb (p_in p) "query") l)
        = List.filter (fun p => String.eqb (p_in p) "query") l).
      { induction l as [| p l IH]; [reflexivity |]. cbn [List.filter].
        destruct (String.eqb (p_in p) "query") eqn:E; [| exact IH].
        cbn [List.filter]. now rewrite E, IH. }
      now rewrite E.
    + eexists. split; [apply lookup_singleton_eq | apply lookup_singleton_eq].
  - now intros ->.
  - now intros p ->.
  - intros Hlen. destruct (query_params declared) as [| p [| q rest]];
      cbn [length] in Hlen; try lia.
    eexists. split; [reflexivity |]. split; reflexivity.
Qed.

Lemma getQueryParametersSchema_cases_witness :
  let tags := mkSchema (Some ["tags"]) {[ "tags" := JObj ∅ ]} None in
  let page := mkSchema None {[ "pageSize" := JObj ∅ ]} (Some [tags]) in
  let declared :=
    [mkApiParameter "path" tags; mkApiParameter "query" page] in
  let paths : gmap string (gmap string Operation) :=
    {[ "/datasets" := {[ "get" := mkOperation (Some declared) ]} ]} in
  getQueryParametersSchema paths GET "/datasets" = Resolved page.
Proof.
  intros tags page declared paths.
  refine (proj1 (proj2 (proj2
    (getQueryParametersSchema_cases paths GET "/datasets" declared _)))
    (mkApiParameter "query" page) _).
  - eexists. split; reflexivity.
  - reflexivity.
Defined.

(** ** [DownloadCollector] *)

Lemma concat_cons (b : string) (bufs : list string) :
  String.concat "" (b :: bufs) = (b ++ String.concat "" bufs)%string.
Proof. destruct bufs; [apply eq_sym, append_empty_r | reflexivity]. Qed.

Lemma concat_app (bufs chunks : list string) :
  String.concat "" (bufs ++ chunks)%list
  = (String.concat "" bufs ++ String.concat "" chunks)%string.
Proof.
  induction bufs as [| b bufs IH]; [reflexivity |].
  change ((b :: bufs) ++ chunks)%list with (b :: (bufs ++ chunks))%list.
  now rewrite !concat_cons, IH, append_assoc.
Qed.


(** X18: a collector constructed without an error acknowledges every write,
    and its collected download is what it had collected followed by the
    chunks written, in order; a collector constructed with an error reports
    that error on every write and never collects anything. *)
Theorem DownloadCollector_collects (this : DownloadCollector) (chunks : list string)
    (chunk : string) :
  match options this with
  | None =>
      (_write chunk this).1 = None
      /\ collectedDownload (written chunks this)
         = (collectedDownload this ++ String.concat "" chunks)%string
  | Some e =>
      (_write chunk this).1 = Some e
      /\ written chunks this = this
  end.
Proof.
  destruct (options this) as [e |] eqn:Ho.
  - split; [unfold _write; now rewrite Ho |].
    unfold written. induction chunks as [| c chunks IH]; [reflexivity |].
    cbn [fold_left]. unfold _write at 2. rewrite Ho. exact IH.
  - split; [unfold _write; now rewrite Ho |].
    assert (E : written chunks this
                = mkDownloadCollector None (bufs this ++ chunks)%list).
    { unfold written. revert this Ho.
      induction chunks as [| c chunks IH]; intros [o b] Ho; cbn in Ho; subst o.
      - cbn. now rewrite app_nil_r.
      - cbn [fold_left]. unfold _write at 2. cbn [options bufs snd].
        rewrite IH by reflexivity. cbn [bufs]. now rewrite <- app_assoc. }
    rewrite E. unfold collectedDownload. cbn [bufs]. apply concat_app.
Qed.

(** ** The polling loop *)

Lemma poll_goes_on (getJobStatus : nat -> outcome JobStatusReport) (k : nat) :
  forall fuel asked printed,
    (forall i, (i < k)%nat ->
       exists job, getJobStatus (asked + i)%nat = Resolved job /\ goes_on job = true) ->
    exists reports,
      length reports = k
      /\ Forall (fun job => goes_on job = true) reports
      /\ (forall i job, reports !! i = Some job ->
            getJobStatus (asked + i)%nat = Resolved job)
      /\ poll (k + fuel) getJobStatus asked printed
         = poll fuel getJobStatus (asked + k)%nat (printed ++ reports)%list.
Proof.
  induction k as [| k IH]; intros fuel asked printed Hk.
  - exists []. rewrite app_nil_r, Nat.add_0_r.
    split; [reflexivity |]. split; [apply Forall_nil_2 |].
    split; [| reflexivity]. intros i job Hi. discriminate Hi.
  - destruct (Hk 0%nat ltac:(lia)) as (job & Hjob & Hgo). rewrite Nat.add_0_r in Hjob.
    destruct (IH fuel (S asked) (printed ++ [job])%list)
      as (reports & Hlen & Hall & Hith & Hpoll).
    { intros i Hi. specialize (Hk (S i) ltac:(lia)).
      now replace (S asked + i)%nat with (asked + S i)%nat by lia. }
    exists (job :: reports). split; [cbn; now rewrite Hlen |].
    split; [apply Forall_cons; split; assumption |].
    split.
    { intros [| i] j Hi.
      - cbn in Hi. injection Hi as <-. now rewrite Nat.add_0_r.
      - cbn in Hi. replace (asked + S i)%nat with (S asked + i)%nat by lia.
        now apply Hith. }
    cbn [Nat.add poll]. rewrite Hjob, Hgo, Hpoll.
    rewrite <- app_assoc. now replace (S asked + k)%nat with (asked + S k)%nat by lia.
Qed.

(** X19: the loop asks for the status at least once, even for a job that is
    over already; it goes on exactly as long as the job is reported pending
    or running and ends with the first other report, having asked once per
    report and printed each of them as it came: the i-th report printed is
    the answer to the i-th request.  A rejected request ends it with that
    rejection, nothing printed for it. *)
Theorem poll_until_settled (getJobStatus : nat -> outcome JobStatusReport)
    (k fuel : nat) (last : outcome JobStatusReport) :
  (forall i, (i < k)%nat ->
     exists job, getJobStatus i = Resolved job /\ goes_on job = true) ->
  getJobStatus k = last ->
  match last with Resolved job => goes_on job = false | Rejected _ => True end ->
  exists printed,
    poll (k + S fuel) getJobStatus 0%nat [] = Some (last, S k, printed)
    /\ length printed = match last with Resolved _ => S k | Rejected _ => k end
    /\ (forall i job, printed !! i = Some job -> getJobStatus i = Resolved job)
    /\ (forall job, job ∈ printed -> Resolved job = last \/ goes_on job = true).
Proof.
  intros Hk Hlast Hend.
  destruct (poll_goes_on getJobStatus k (S fuel) 0%nat [])
    as (reports & Hlen & Hall & Hith & Hpoll); [exact Hk |].
  rewrite Hpoll. cbn [Nat.add app poll]. rewrite Hlast.
  rewrite Forall_forall in Hall.
  destruct last as [job | e].
  - rewrite Hend. exists (reports ++ [job])%list. split; [reflexivity |].
    split; [rewrite length_app; cbn; lia |].
    split.
    + intros i j Hi. apply lookup_app_Some in Hi as [Hi | [Hge Hi]].
      * now apply (Hith i j).
      * apply list_lookup_singleton_Some in Hi as [Hi <-].
        replace i with k by lia. exact Hlast.
    + intros j Hj. apply elem_of_app in Hj as [Hj | Hj]; [right; auto |].
      apply list_elem_of_singleton in Hj. subst j. now left.
  - exists reports. split; [reflexivity |]. split; [exact Hlen |].
    split; [intros i j Hi; now apply (Hith i j) |].
    intros j Hj. right. auto.
Qed.

Lemma poll_until_settled_witness :
  let pending := mkJobStatusReport PENDING [] in
  let running := mkJobStatusReport RUNNING [] in
  let done := mkJobStatusReport (Settled "Succeeded") ["count.txt"] in
  let getJobStatus n :=
    match n with
    | O => Resolved pending
    | S O => Resolved running
    | _ => Resolved done
    end in
  poll 3 getJobStatus 0%nat [] = Some (Resolved done, 3%nat, [pending; running; done]).
Proof.
  intros pending running done getJobStatus.
  destruct (poll_until_settled getJobStatus 2 0 (Resolved done))
    as (printed & Hpoll & Hlen & Hith & _).
  - intros [| [| i]] Hi; [eexists; split; reflexivity .. | lia].
  - reflexivity.
  - reflexivity.
  - transitivity (Some (Resolved done, 3%nat, printed)); [exact Hpoll |].
    do 2 f_equal.
    destruct printed as [| a [| b [| d [| x printed]]]]; try discriminate Hlen.
    pose proof (Hith 0%nat a eq_refl) as Ha.
    pose proof (Hith 1%nat b eq_refl) as Hb.
    pose proof (Hith 2%nat d eq_refl) as Hd.
    injection Ha as <-. injection Hb as <-. injection Hd as <-. reflexivity.
Defined.

(** ** More of the first revision: create, get, and failures *)

(** An equation between a run and its own result is checked on the outcome
    alone; the world is the run's by definition. *)
Ltac by_running :=
  lazymatch goal with
  | |- ?run = (?outcome, ?world) =>
      apply (injective_projections run (outcome, world));
      [vm_compute; reflexivity | reflexivity]
  end.


Lemma allocates_snoc (h : list obj) (q q' : list Request) (o : obj) :
  allocates (mkWorld h q) (mkWorld (h ++ [o]) q') (length h) o.
Proof.
  split; [| split]; cbn [heap].
  - apply lookup_ge_None. lia.
  - now apply list_lookup_middle.
  - intros l' o' Hl'. now apply lookup_app_l_Some.
Qed.

Lemma request_outcome (c : HttpClient) (r : Request) (n : Z) (w : World) :
  bind (send c r) (fun x => parsed n x) w
  = (if status (gateway c (sent w) r) =? n then
       match rjson (gateway c (sent w) r) with
       | Some j => Resolved j
       | None => Rejected SyntaxError
       end
     else Rejected (RequestError (status (gateway c (sent w) r))),
     mkWorld (heap w) (sent w ++ [r])).
Proof.
  rewrite (bind_step _ _ _ _ _ (send_spec _ _ _)). unfold parsed.
  destruct (status _ =? n); [destruct (rjson _) |]; reflexivity.
Qed.

(** A request for a snapshot followed by [new App]: the shape create, get
    and update share. *)
Lemma fetch_outcome `{JSDate} (c : HttpClient) (r : Request) (n : Z) (w : World) :
  bind (bind (send c r) (fun x => parsed n x)) (fun podApp => PartA.new_App c podApp) w
  = let answer := gateway c (sent w) r in
    let w1 := mkWorld (heap w) (sent w ++ [r]) in
    if status answer =? n then
      match rjson answer with
      | Some JNull => (Rejected TypeError, w1)
      | Some pod =>
          (Resolved (length (heap w)),
           mkWorld (heap w ++ [PartA.App_constructor c pod]) (sent w ++ [r]))
      | None => (Rejected SyntaxError, w1)
      end
    else (Rejected (RequestError (status answer)), w1).
Proof.
  unfold bind at 1. rewrite request_outcome. cbv zeta.
  destruct (status _ =? n); [| reflexivity].
  destruct (rjson _) as [[] |]; reflexivity.
Qed.

Lemma fetch_rejected `{JSDate} (c : HttpClient) (r : Request) (n : Z) (w w' : World) e :
  bind (bind (send c r) (fun x => parsed n x)) (fun podApp => PartA.new_App c podApp) w
  = (Rejected e, w') ->
  heap w' = heap w.
Proof.
  rewrite fetch_outcome. cbv zeta.
  destruct (status _ =? n); [destruct (rjson _) as [[] |] |];
    intros E; inversion E; reflexivity.
Qed.


Lemma AppImpl_create_resolved `{JSDate} (c : HttpClient) (w : World) (params pod : json) :
  pod <> JNull ->
  status (gateway c (sent w) (create_request params)) = 201 ->
  rjson (gateway c (sent w) (create_request params)) = Some pod ->
  PartA.AppImpl_create c params w
  = (Resolved (length (heap w)),
     mkWorld (heap w ++ [PartA.App_constructor c pod])
             (sent w ++ [create_request params])).
Proof.
  intros Hpod Hs Hj.
  unfold PartA.AppImpl_create, client_create. fold (create_request params).
  rewrite fetch_outcome. cbv zeta. rewrite Hs, Hj.
  destruct pod; [contradiction | reflexivity ..].
Qed.

Lemma AppImpl_get_resolved `{JSDate} (c : HttpClient) (w : World) (id : string)
    (pod : json) :
  pod <> JNull ->
  status (gateway c (sent w) (get_request id)) = 200 ->
  rjson (gateway c (sent w) (get_request id)) = Some pod ->
  PartA.AppImpl_get c id w
  = (Resolved (length (heap w)),
     mkWorld (heap w ++ [PartA.App_constructor c pod])
             (sent w ++ [get_request id])).
Proof.
  intros Hpod Hs Hj.
  unfold PartA.AppImpl_get, client_get. cbn [query_of]. fold (get_request id).
  rewrite fetch_outcome. cbv zeta. rewrite Hs, Hj.
  destruct pod; [contradiction | reflexivity ..].
Qed.

(** X1: when the gateway answers create with 201, or get with 200, and a
    body other than null, the operation resolves with a location that was
    not in use, holding the [App] constructed from the body; every object
    that existed is left as it was. *)
Theorem AppImpl_create_get_fresh `{JSDate} (c : HttpClient) (w : World)
    (params : json) (id : string) (pod : json) :
  pod <> JNull ->
  (status (gateway c (sent w) (create_request params)) = 201 ->
   rjson (gateway c (sent w) (create_request params)) = Some pod ->
   exists l w',
     PartA.AppImpl_create c params w = (Resolved l, w')
     /\ allocates w w' l (PartA.App_constructor c pod))
  /\ (status (gateway c (sent w) (get_request id)) = 200 ->
      rjson (gateway c (sent w) (get_request id)) = Some pod ->
      exists l w',
        PartA.AppImpl_get c id w = (Resolved l, w')
        /\ allocates w w' l (PartA.App_constructor c pod)).
Proof.
  intros Hpod. split; intros Hs Hj; eexists _, _.
  - split; [apply (AppImpl_create_resolved c w params pod Hpod Hs Hj) |].
    destruct w. apply allocates_snoc.
  - split; [apply (AppImpl_get_resolved c w id pod Hpod Hs Hj) |].
    destruct w. apply allocates_snoc.
Qed.

Lemma AppImpl_create_get_fresh_witness :
  let c := scripted [mkResponse 200 [] (Some fixtureApp)] in
  exists l w',
    @PartA.AppImpl_get epoch_Date c "a1" empty_World = (Resolved l, w')
    /\ allocates empty_World w' l (@PartA.App_constructor epoch_Date c fixtureApp).
Proof.
  intros c.
  refine (proj2 (@AppImpl_create_get_fresh epoch_Date c empty_World JNull "a1" fixtureApp _)
            _ _).
  - discriminate.
  - reflexivity.
  - reflexivity.
Defined.

(** X2: a create, get or update that rejects, whatever the reason, leaves
    the heap as it was: no object is created, and the object [update] was
    called on keeps every field. *)
Theorem rejection_leaves_heap `{JSDate} (c : HttpClient) (this : loc) (id : string)
    (params : json) (w w' : World) (e : error) :
  PartA.AppImpl_create c params w = (Rejected e, w')
  \/ PartA.AppImpl_get c id w = (Rejected e, w')
  \/ PartA.AppImpl_update c id params w = (Rejected e, w')
  \/ PartA.App_update this params w = (Rejected e, w') ->
  heap w' = heap w.
Proof.
  intros [E | [E | [E | E]]].
  - eapply fetch_rejected. exact E.
  - eapply fetch_rejected. exact E.
  - eapply fetch_rejected. exact E.
  - unfold PartA.App_update in E. unfold bind at 1, load in E.
    destruct (heap w !! this) as [o |] eqn:Hthis; [| now inversion E].
    unfold bind at 1 in E.
    destruct (read o "client") as [| | | c0]; cbn [as_client] in E;
      try (now inversion E).
    cbn [ret] in E. unfold bind at 1 in E.
    destruct (PartA.AppImpl_update c0 (ToString (read o "id")) params w)
      as [[fresh | e0] w1] eqn:Hup.
    + apply AppImpl_update_inv in Hup as (pod & _ & _ & -> & ->).
      rewrite (bind_step _ _ _ _ _ (Object_assign_fresh _ _ _ _ _ Hthis)) in E.
      discriminate E.
    + inversion E; subst. eapply fetch_rejected. exact Hup.
Qed.

Lemma rejection_leaves_heap_witness :
  let c := scripted [mkResponse 404 [] None] in
  let w := mkWorld [@PartA.App_constructor epoch_Date c fixtureApp] [] in
  heap (@PartA.App_update epoch_Date 0%nat (JObj ∅) w).2 = heap w.
Proof.
  intros c w.
  apply (@rejection_leaves_heap epoch_Date c 0%nat "a1" (JObj ∅) w _ (RequestError 404)).
  right. right. right.
  change (@PartA.App_update epoch_Date 0%nat (JObj ∅) w
          = (Rejected (RequestError 404),
             (@PartA.App_update epoch_Date 0%nat (JObj ∅) w).2)).
  by_running.
Defined.

(** ** More of the first revision: operations in sequence *)

Lemma read_constructor_client `{JSDate} (c : HttpClient) (pod : json) :
  read (PartA.App_constructor c pod) "client" = VClient c.
Proof. unfold read. now rewrite App_constructor_client. Qed.

Lemma read_constructor_id `{JSDate} (c : HttpClient) (pod : json) :
  read (PartA.App_constructor c pod) "id" = prop pod "id".
Proof.
  unfold read. rewrite App_constructor_lookup; [reflexivity | | discriminate].
  apply (bool_decide_unpack _). vm_compute. exact I.
Qed.

Lemma read_assigned (fresh o : obj) (k : string) :
  is_Some (fresh !! k) -> read (fresh ∪ o) k = read fresh k.
Proof. intros Hk. unfold read. now rewrite assign_covers. Qed.

Lemma assign_twice (newer older o : obj) :
  dom older = dom newer -> newer ∪ (older ∪ o) = newer ∪ o.
Proof.
  intros Hdom. apply map_eq. intros k.
  destruct (newer !! k) as [v |] eqn:Hk.
  - rewrite !(lookup_union_Some_l _ _ _ _ Hk). reflexivity.
  - rewrite (lookup_union_r newer (older ∪ o)) by exact Hk.
    rewrite (lookup_union_r newer o) by exact Hk.
    apply lookup_union_r. apply not_elem_of_dom. rewrite Hdom.
    now apply not_elem_of_dom.
Qed.

(** What [update] leaves behind, in terms of the object it was called on. *)
Lemma App_update_step `{JSDate} (this r : loc) (o : obj) (c : HttpClient) (params : json)
    (w w' : World) :
  heap w !! this = Some o ->
  read o "client" = VClient c ->
  PartA.App_update this params w = (Resolved r, w') ->
  r = this
  /\ exists pod,
       rjson (gateway c (sent w) (update_request (ToString (read o "id")) params))
       = Some pod
       /\ heap w' !! this = Some (PartA.App_constructor c pod ∪ o)
       /\ sent w' = (sent w ++ [update_request (ToString (read o "id")) params])%list
       /\ read (PartA.App_constructor c pod ∪ o) "client" = VClient c
       /\ read (PartA.App_constructor c pod ∪ o) "id" = prop pod "id".
Proof.
  intros Hthis Hc E.
  destruct (App_update_inv _ _ _ _ _ _ Hthis E) as (-> & c' & pod & Hc' & Hj & ->).
  rewrite Hc in Hc'. inversion Hc'; subst c'. split; [reflexivity |].
  exists pod. split; [exact Hj |]. split.
  { cbn [heap]. apply list_lookup_insert_eq. rewrite length_app.
    apply lookup_lt_Some in Hthis. lia. }
  split; [reflexivity |]. split.
  - rewrite read_assigned; [apply read_constructor_client |].
    apply App_constructor_defined, list_elem_of_here.
  - rewrite read_assigned; [apply read_constructor_id |].
    apply App_constructor_defined. apply (bool_decide_unpack _). vm_compute. exact I.
Qed.

(** X3: of two updates in a row the last response wins: the object ends up
    with the fields of the second response and nothing of the first, and the
    second request is addressed to the id the first response carried. *)
Theorem App_update_twice `{JSDate} (this r1 r2 : loc) (o : obj) (c : HttpClient)
    (p1 p2 : json) (w w1 w2 : World) :
  heap w !! this = Some o ->
  read o "client" = VClient c ->
  PartA.App_update this p1 w = (Resolved r1, w1) ->
  PartA.App_update r1 p2 w1 = (Resolved r2, w2) ->
  r2 = this
  /\ exists pod1 pod2,
       rjson (gateway c (sent w) (update_request (ToString (read o "id")) p1))
       = Some pod1
       /\ rjson (gateway c (sent w1) (update_request (ToString (prop pod1 "id")) p2))
          = Some pod2
       /\ heap w2 !! this = Some (PartA.App_constructor c pod2 ∪ o)
       /\ sent w2
          = (sent w ++ [update_request (ToString (read o "id")) p1;
                        update_request (ToString (prop pod1 "id")) p2])%list.
Proof.
  intros Hthis Hc E1 E2.
  destruct (App_update_step _ _ _ _ _ _ _ Hthis Hc E1)
    as (-> & pod1 & Hj1 & Hthis1 & Hsent1 & Hc1 & Hid1).
  destruct (App_update_step _ _ _ _ _ _ _ Hthis1 Hc1 E2)
    as (-> & pod2 & Hj2 & Hthis2 & Hsent2 & _ & _).
  rewrite Hid1 in Hj2, Hsent2. split; [reflexivity |].
  exists pod1, pod2. split; [exact Hj1 |]. split; [exact Hj2 |]. split.
  - rewrite Hthis2, assign_twice; [reflexivity |]. now rewrite !App_constructor_dom.
  - rewrite Hsent2, Hsent1, <- app_assoc. reflexivity.
Qed.

Lemma App_update_twice_witness :
  let c := scripted [mkResponse 200 [] (Some updatedApp);
                     mkResponse 200 [] (Some fixtureApp)] in
  let o := @PartA.App_constructor epoch_Date c fixtureApp in
  let w := mkWorld [o] [] in
  let w1 := (@PartA.App_update epoch_Date 0%nat (JObj ∅) w).2 in
  let w2 := (@PartA.App_update epoch_Date 0%nat JNull w1).2 in
  0%nat = 0%nat
  /\ exists pod1 pod2,
       rjson (gateway c (sent w)
                (update_request (@ToString epoch_Date (read o "id")) (JObj ∅)))
       = Some pod1
       /\ rjson (gateway c (sent w1)
                   (update_request (@ToString epoch_Date (prop pod1 "id")) JNull))
          = Some pod2
       /\ heap w2 !! 0%nat = Some (@PartA.App_constructor epoch_Date c pod2 ∪ o)
       /\ sent w2
          = (sent w ++ [update_request (@ToString epoch_Date (read o "id")) (JObj ∅);
                        update_request (@ToString epoch_Date (prop pod1 "id")) JNull])%list.
Proof.
  intros c o w w1 w2.
  apply (@App_update_twice epoch_Date 0%nat 0%nat 0%nat o c (JObj ∅) JNull w w1 w2).
  - reflexivity.
  - reflexivity.
  - by_running.
  - by_running.
Defined.

Lemma App_delete_step `{JSDate} (this : loc) (o : obj) (c : HttpClient) (w : World) :
  heap w !! this = Some o ->
  read o "client" = VClient c ->
  PartA.App_delete this w = client_delete c (PartA.endpointForId (ToString (read o "id"))) w.
Proof.
  intros Hthis Hc. unfold PartA.App_delete.
  assert (L : load this w = (Resolved o, w)) by (unfold load; now rewrite Hthis).
  rewrite (bind_step _ _ _ _ _ L), Hc.
  now rewrite (bind_step (as_client (VClient c)) _ w c w).
Qed.

(** X4: a delete that follows an update is addressed to the id the update's
    response carried, through the same transport; it changes no object and
    resolves exactly when that request is answered 204. *)
Theorem App_update_then_delete `{JSDate} (this r : loc) (o : obj) (c : HttpClient)
    (params : json) (w w1 : World) :
  heap w !! this = Some o ->
  read o "client" = VClient c ->
  PartA.App_update this params w = (Resolved r, w1) ->
  exists pod,
    rjson (gateway c (sent w) (update_request (ToString (read o "id")) params))
    = Some pod
    /\ requests_of (PartA.App_delete r) w1
       = (sent w ++ [update_request (ToString (read o "id")) params;
                     delete_request (ToString (prop pod "id"))])%list
    /\ heap (PartA.App_delete r w1).2 = heap w1
    /\ ((PartA.App_delete r w1).1 = Resolved tt
        <-> status (gateway c (sent w1) (delete_request (ToString (prop pod "id")))) = 204).
Proof.
  intros Hthis Hc E.
  destruct (App_update_step _ _ _ _ _ _ _ Hthis Hc E)
    as (-> & pod & Hj & Hthis1 & Hsent1 & Hc1 & Hid1).
  exists pod. split; [exact Hj |].
  unfold requests_of. rewrite (App_delete_step _ _ _ _ Hthis1 Hc1), Hid1.
  rewrite client_delete_outcome. cbn [fst snd heap sent].
  fold (delete_request (ToString (prop pod "id"))).
  split; [rewrite Hsent1, <- app_assoc; reflexivity |]. split; [reflexivity |].
  cbv zeta.
  destruct (Z.eqb_spec
    (status (gateway c (sent w1) (delete_request (ToString (prop pod "id"))))) 204).
  - tauto.
  - split; [discriminate | contradiction].
Qed.

Lemma App_update_then_delete_witness :
  let c := scripted [mkResponse 200 [] (Some updatedApp); mkResponse 204 [] None] in
  let o := @PartA.App_constructor epoch_Date c fixtureApp in
  let w := mkWorld [o] [] in
  let w1 := (@PartA.App_update epoch_Date 0%nat (JObj ∅) w).2 in
  exists pod,
    rjson (gateway c (sent w)
             (update_request (@ToString epoch_Date (read o "id")) (JObj ∅)))
    = Some pod
    /\ requests_of (@PartA.App_delete epoch_Date 0%nat) w1
       = (sent w ++ [update_request (@ToString epoch_Date (read o "id")) (JObj ∅);
                     delete_request (@ToString epoch_Date (prop pod "id"))])%list
    /\ heap (@PartA.App_delete epoch_Date 0%nat w1).2 = heap w1
    /\ ((@PartA.App_delete epoch_Date 0%nat w1).1 = Resolved tt
        <-> status (gateway c (sent w1)
                      (delete_request (@ToString epoch_Date (prop pod "id")))) = 204).
Proof.
  intros c o w w1.
  apply (@App_update_then_delete epoch_Date 0%nat 0%nat o c (JObj ∅) w w1).
  - reflexivity.
  - reflexivity.
  - by_running.
Defined.

(** ** More of the first revision: listing *)

Lemma mapM_new_App_inv `{JSDate} (c : HttpClient) (pods : list json) (w w' : World)
    (ls : list loc) :
  mapM (fun podApp => PartA.new_App c podApp) pods w = (Resolved ls, w') ->
  Forall (fun pod => pod <> JNull) pods.
Proof.
  revert w w' ls.
  induction pods as [| pod pods IH]; intros w w' ls E; [apply Forall_nil_2 |].
  cbn [mapM] in E.
  apply bind_resolved in E as (l & w1 & E1 & E).
  apply bind_resolved in E as (ls' & w2 & E2 & _).
  apply new_App_inv in E1 as (Hpod & _).
  apply Forall_cons. split; [exact Hpod | eapply IH; exact E2].
Qed.

Lemma AppImpl_list_inv `{JSDate} (c : HttpClient) (filter : option Filter)
    (w w' : World) (page : Page) :
  PartA.AppImpl_list c filter w = (Resolved page, w') ->
  status (gateway c (sent w) (list_request filter)) = 200
  /\ exists m pods,
       rjson (gateway c (sent w) (list_request filter)) = Some (JObj m)
       /\ m !! "results" = Some (JArr pods)
       /\ Forall (fun pod => pod <> JNull) pods.
Proof.
  unfold PartA.AppImpl_list, client_get. fold (list_request filter). intros E.
  apply bind_resolved in E as (podPage & w1 & E1 & E).
  rewrite request_outcome in E1.
  destruct (Z.eqb_spec (status (gateway c (sent w) (list_request filter))) 200)
    as [Hs | Hs]; [| discriminate E1].
  destruct (rjson (gateway c (sent w) (list_request filter))) as [j |] eqn:Hj;
    [| discriminate E1].
  inversion E1; subst podPage w1; clear E1.
  apply bind_resolved in E as (rs & w1 & E1 & E).
  apply bind_resolved in E as (pods & w2 & E2 & E).
  apply bind_resolved in E as (ls & w3 & E3 & _).
  destruct j as [| | | | | m]; cbn in E1; try discriminate E1;
    inversion E1; subst rs w1; clear E1; try discriminate E2.
  cbn [prop] in E2. destruct (m !! "results") as [[| | | | xs |] |] eqn:Hr;
    cbn in E2; try discriminate E2.
  inversion E2; subst pods w2; clear E2.
  split; [exact Hs |]. exists m, xs.
  split; [first [reflexivity | assumption] |].
  split; [first [reflexivity | assumption] |].
  eapply mapM_new_App_inv. exact E3.
Qed.

(** X5: list resolves exactly when the gateway answers 200 with a JSON
    object whose [results] is an array with no null in it; any other status,
    a body that is not such an object, a missing [results] or a null result
    makes it reject. *)
Theorem AppImpl_list_resolves_iff `{JSDate} (c : HttpClient) (filter : option Filter)
    (w : World) :
  (exists page w', PartA.AppImpl_list c filter w = (Resolved page, w'))
  <-> (status (gateway c (sent w) (list_request filter)) = 200
       /\ exists m pods,
            rjson (gateway c (sent w) (list_request filter)) = Some (JObj m)
            /\ m !! "results" = Some (JArr pods)
            /\ Forall (fun pod => pod <> JNull) pods).
Proof.
  split.
  - intros (page & w' & E). eapply AppImpl_list_inv. exact E.
  - intros (Hs & m & pods & Hj & Hr & Hpods). eexists _, _.
    apply (AppImpl_list_resolved c filter w m pods); assumption.
Qed.

(** X6: the objects of a page are new and pairwise distinct: none of their
    locations was in use, each holds an object afterwards, and every object
    that existed before the listing is left as it was. *)
Theorem AppImpl_list_fresh `{JSDate} (c : HttpClient) (filter : option Filter)
    (w w' : World) (page : Page) :
  PartA.AppImpl_list c filter w = (Resolved page, w') ->
  NoDup (results page)
  /\ (forall l, l ∈ results page -> heap w !! l = None /\ is_Some (heap w' !! l))
  /\ (forall l o, heap w !! l = Some o -> heap w' !! l = Some o)
  /\ length (heap w') = (length (heap w) + length (results page))%nat.
Proof.
  intros E.
  destruct (AppImpl_list_inv _ _ _ _ _ E) as (Hs & m & pods & Hj & Hr & Hpods).
  rewrite (AppImpl_list_resolved c filter w m pods Hs Hj Hr Hpods) in E.
  inversion E; subst page w'; clear E. cbn [results heap].
  split; [apply NoDup_seq |]. split; [| split].
  - intros l Hl. apply elem_of_seq in Hl as [Hlo Hhi]. split.
    + apply lookup_ge_None. lia.
    + apply lookup_lt_is_Some. rewrite length_app, length_map. lia.
  - intros l o Hl. now apply lookup_app_l_Some.
  - now rewrite length_app, length_map, length_seq.
Qed.

Lemma AppImpl_list_fresh_witness :
  let c := scripted [mkResponse 200 [] (Some (JObj fixturePage))] in
  let w := mkWorld [@PartA.App_constructor epoch_Date c fixtureApp] [] in
  let run := @PartA.AppImpl_list epoch_Date c None w in
  NoDup [1; 2; 3]%nat
  /\ (forall l, l ∈ [1; 2; 3]%nat -> heap w !! l = None /\ is_Some (heap run.2 !! l))
  /\ (forall l o, heap w !! l = Some o -> heap run.2 !! l = Some o)
  /\ length (heap run.2) = (length (heap w) + length [1; 2; 3]%nat)%nat.
Proof.
  intros c w run.
  apply (@AppImpl_list_fresh epoch_Date c None w run.2
           (mkPage [1; 2; 3]%nat (VJson (JStr "b0a5cb1e")))).
  subst run. by_running.
Defined.

(** ** More of the first revision: the constructor does not validate *)


Lemma prop_of_non_object (body : json) (k : string) :
  is_scalar_or_array body = true -> prop body k = VUndef.
Proof. destruct body; first [discriminate | reflexivity]. Qed.

(** X7: the constructor copies no property it does not declare, and get
    does not validate the body: answered 200 with a string, a number, a
    boolean or an array, it still resolves, with an App whose every field is
    undefined and whose [createdAt] is the invalid date. *)
Theorem AppImpl_get_unvalidated `{JSDate} (c : HttpClient) (id : string) (w : World)
    (body : json) :
  status (gateway c (sent w) (get_request id)) = 200 ->
  rjson (gateway c (sent w) (get_request id)) = Some body ->
  (forall k, k <> "client" -> k ∉ PartA.App_public ->
             PartA.App_constructor c body !! k = None)
  /\ (is_scalar_or_array body = true ->
      exists l w',
        PartA.AppImpl_get c id w = (Resolved l, w')
        /\ heap w' !! l = Some (PartA.App_constructor c body)
        /\ (forall k, k ∈ PartA.App_public -> k <> "createdAt" ->
                      PartA.App_constructor c body !! k = Some VUndef)
        /\ PartA.App_constructor c body !! "createdAt" = Some (VDate None)).
Proof.
  intros Hs Hj. split.
  - intros k Hc Hk. apply not_elem_of_dom. rewrite App_constructor_dom.
    rewrite elem_of_list_to_set, elem_of_cons, <- App_public_PODApp. tauto.
  - intros Hbody.
    assert (Hnull : body <> JNull) by (intros ->; discriminate Hbody).
    eexists _, _. split; [apply (AppImpl_get_resolved c w id body Hnull Hs Hj) |].
    split; [cbn [heap]; now apply list_lookup_middle |]. split.
    + intros k Hk Hne. rewrite App_constructor_lookup.
      * now rewrite prop_of_non_object.
      * now apply App_public_PODApp.
      * exact Hne.
    + rewrite App_constructor_createdAt, prop_of_non_object by exact Hbody.
      reflexivity.
Qed.

Lemma AppImpl_get_unvalidated_witness :
  let c := scripted [mkResponse 200 [] (Some (JStr "oops"))] in
  exists l w',
    @PartA.AppImpl_get epoch_Date c "a1" empty_World = (Resolved l, w')
    /\ heap w' !! l = Some (@PartA.App_constructor epoch_Date c (JStr "oops"))
    /\ (forall k, k ∈ PartA.App_public -> k <> "createdAt" ->
                  @PartA.App_constructor epoch_Date c (JStr "oops") !! k = Some VUndef)
    /\ @PartA.App_constructor epoch_Date c (JStr "oops") !! "createdAt"
       = Some (VDate None).
Proof.
  intros c.
  refine (proj2 (@AppImpl_get_unvalidated epoch_Date c "a1" empty_World (JStr "oops") _ _)
            _).
  - reflexivity.
  - reflexivity.
  - reflexivity.
Defined.

(** X12: update by id makes a new object of the response and touches no
    other: an App that was constructed for the same id before keeps the
    fields it had. *)
Theorem AppImpl_update_by_id_fresh `{JSDate} (c : HttpClient) (id : string)
    (params : json) (w w' : World) (l : loc) :
  PartA.AppImpl_update c id params w = (Resolved l, w') ->
  exists pod,
    rjson (gateway c (sent w) (update_request id params)) = Some pod
    /\ allocates w w' l (PartA.App_constructor c pod).
Proof.
  intros E. apply AppImpl_update_inv in E as (pod & _ & Hj & -> & ->).
  exists pod. split; [exact Hj |]. destruct w. apply allocates_snoc.
Qed.

Lemma AppImpl_update_by_id_fresh_witness :
  let c := scripted [mkResponse 200 [] (Some updatedApp)] in
  let stale := @PartA.App_constructor epoch_Date c fixtureApp in
  let w := mkWorld [stale] [] in
  exists pod,
    rjson (gateway c (sent w) (update_request "a1" (JObj ∅))) = Some pod
    /\ allocates w (@PartA.AppImpl_update epoch_Date c "a1" (JObj ∅) w).2 1%nat
         (@PartA.App_constructor epoch_Date c pod).
Proof.
  intros c stale w.
  apply (@AppImpl_update_by_id_fresh epoch_Date c "a1" (JObj ∅) w).
  by_running.
Defined.

(** ** The second revision: the scenarios of the unit tests *)

Section SecondRevision.
Context `{JSDate}.

Lemma App_constructor_dom_B (client : HttpClient) (pod : json) :
  dom (PartB.App_constructor client pod)
  = list_to_set ("client" :: names PartB.PODApp).
Proof.
  unfold PartB.App_constructor. cbv zeta.
  rewrite !dom_insert_L, dom_singleton_L.
  list_literal (names PartB.PODApp). cbn [list_to_set foldr].
  set_solver.
Qed.

Lemma App_constructor_defined_B (client : HttpClient) (pod : json) k :
  k ∈ "client" :: names PartB.PODApp ->
  is_Some (PartB.App_constructor client pod !! k).
Proof.
  intros Hk. apply elem_of_dom. rewrite App_constructor_dom_B.
  now apply elem_of_list_to_set.
Qed.

Lemma read_constructor_client_B (c : HttpClient) (pod : json) :
  read (PartB.App_constructor c pod) "client" = VClient c.
Proof. reflexivity. Qed.

Lemma read_constructor_id_B (c : HttpClient) (pod : json) :
  read (PartB.App_constructor c pod) "id" = prop pod "id".
Proof.
  unfold read. rewrite App_constructor_lookup_B; [reflexivity | | discriminate].
  apply (bool_decide_unpack _). vm_compute. exact I.
Qed.

Lemma fetch_outcome_B (c : HttpClient) (r : Request) (n : Z) (w : World) :
  bind (bind (send c r) (fun x => parsed n x)) (fun podApp => PartB.new_App c podApp) w
  = let answer := gateway c (sent w) r in
    let w1 := mkWorld (heap w) (sent w ++ [r]) in
    if status answer =? n then
      match rjson answer with
      | Some JNull => (Rejected TypeError, w1)
      | Some pod =>
          (Resolved (length (heap w)),
           mkWorld (heap w ++ [PartB.App_constructor c pod]) (sent w ++ [r]))
      | None => (Rejected SyntaxError, w1)
      end
    else (Rejected (RequestError (status answer)), w1).
Proof.
  unfold bind at 1. rewrite request_outcome. cbv zeta.
  destruct (status _ =? n); [| reflexivity].
  destruct (rjson _) as [[] |]; reflexivity.
Qed.

Lemma fetch_inv_B (c : HttpClient) (r : Request) (n : Z) (w w' : World) (l : loc) :
  bind (bind (send c r) (fun x => parsed n x)) (fun podApp => PartB.new_App c podApp) w
  = (Resolved l, w') ->
  exists pod,
    status (gateway c (sent w) r) = n
    /\ rjson (gateway c (sent w) r) = Some pod
    /\ l = length (heap w)
    /\ w' = mkWorld (heap w ++ [PartB.App_constructor c pod]) (sent w ++ [r]).
Proof.
  rewrite fetch_outcome_B. cbv zeta.
  destruct (Z.eqb_spec (status (gateway c (sent w) r)) n) as [Hs | Hs];
    [| discriminate].
  destruct (rjson _) as [pod |]; [| discriminate].
  destruct pod; intros E; inversion E; subst; eexists; repeat split; reflexivity.
Qed.

Lemma App_update_step_B (this r : loc) (o : obj) (c : HttpClient) (params : json)
    (w w' : World) :
  heap w !! this = Some o ->
  read o "client" = VClient c ->
  PartB.App_update this params w = (Resolved r, w') ->
  r = this
  /\ exists pod,
       rjson (gateway c (sent w) (update_request_B (ToString (read o "id")) params))
       = Some pod
       /\ heap w' !! this = Some (PartB.App_constructor c pod ∪ o)
       /\ sent w' = (sent w ++ [update_request_B (ToString (read o "id")) params])%list.
Proof.
  intros Hthis Hc E. unfold PartB.App_update in E.
  assert (L : load this w = (Resolved o, w)) by (unfold load; now rewrite Hthis).
  rewrite (bind_step _ _ _ _ _ L), Hc in E.
  rewrite (bind_step (as_client (VClient c)) _ w c w) in E by reflexivity.
  apply bind_resolved in E as (fresh & w1 & E1 & E).
  unfold PartB.AppImpl_update, client_update in E1.
  fold (update_request_B (ToString (read o "id")) params) in E1.
  apply fetch_inv_B in E1 as (pod & _ & Hj & -> & ->).
  remember (PartB.App_constructor c pod) as made eqn:Hmade.
  rewrite (bind_step _ _ _ _ _ (Object_assign_fresh _ _ _ _ _ Hthis)) in E.
  inversion E; subst r w'; clear E.
  split; [reflexivity |]. exists pod. split; [exact Hj |]. split; [| reflexivity].
  cbn [heap]. rewrite <- Hmade. apply list_lookup_insert_eq. rewrite length_app.
  apply lookup_lt_Some in Hthis. lia.
Qed.

Lemma App_delete_step_B (this : loc) (o : obj) (c : HttpClient) (w : World) :
  heap w !! this = Some o ->
  read o "client" = VClient c ->
  PartB.App_delete this w = client_delete c (PartB.endpointForId (ToString (read o "id"))) w.
Proof.
  intros Hthis Hc. unfold PartB.App_delete.
  assert (L : load this w = (Resolved o, w)) by (unfold load; now rewrite Hthis).
  rewrite (bind_step _ _ _ _ _ L), Hc.
  now rewrite (bind_step (as_client (VClient c)) _ w c w).
Qed.

Lemma AppImpl_get_inv_B (c : HttpClient) (id : string) (w w1 : World) (l : loc) :
  PartB.AppImpl_get c id w = (Resolved l, w1) ->
  exists pod,
    rjson (gateway c (sent w) (get_request_B id)) = Some pod
    /\ heap w1 !! l = Some (PartB.App_constructor c pod)
    /\ heap w !! l = None
    /\ sent w1 = (sent w ++ [get_request_B id])%list.
Proof.
  unfold PartB.AppImpl_get, client_get. cbn [query_of]. fold (get_request_B id).
  intros E. apply fetch_inv_B in E as (pod & _ & Hj & -> & ->).
  exists pod. split; [exact Hj |]. cbn [heap sent].
  split; [now apply list_lookup_middle |].
  split; [apply lookup_ge_None; lia | reflexivity].
Qed.

End SecondRevision.

(** X8: an [App] the second revision constructs from a valid snapshot of its
    own [PODApp] reads back the snapshot field for field, [homepage] and
    [logo] included; [createdAt] is the date its timestamp denotes, and no
    other property is set besides the transport. *)
Theorem second_revision_reads_back `{JSDate} (client : HttpClient) (pod : json) :
  conforms PartB.PODApp pod = true ->
  let app := PartB.App_constructor client pod in
  (forall k, k ∈ names PartB.PODApp -> k <> "createdAt" -> app !! k = Some (prop pod k))
  /\ (exists s, prop pod "createdAt" = VJson (JStr s)
                /\ app !! "createdAt" = Some (VDate (Date_parse s)))
  /\ (forall k, k ∈ dom app <-> k = "client" \/ k ∈ names PartB.PODApp).
Proof.
  intros Hvalid app. subst app.
  destruct pod as [| | | | | m]; try discriminate.
  split; [intros k; apply App_constructor_lookup_B |]. split.
  - destruct (conforms_field _ _ "createdAt" TString Hvalid) as (j & Hj & Ht).
    { apply (bool_decide_unpack _). vm_compute. exact I. }
    destruct (has_type_string _ Ht) as [s ->]. exists s.
    rewrite App_constructor_createdAt_B. cbn [prop]. rewrite Hj. split; reflexivity.
  - intros k. rewrite App_constructor_dom_B, elem_of_list_to_set, elem_of_cons.
    reflexivity.
Qed.

Lemma second_revision_reads_back_witness :
  let app := @PartB.App_constructor epoch_Date (scripted []) fixturePodApp in
  (forall k, k ∈ names PartB.PODApp -> k <> "createdAt" ->
             app !! k = Some (prop fixturePodApp k))
  /\ (exists s, prop fixturePodApp "createdAt" = VJson (JStr s)
                /\ app !! "createdAt" = Some (VDate (@Date_parse epoch_Date s)))
  /\ (forall k, k ∈ dom app <-> k = "client" \/ k ∈ names PartB.PODApp).
Proof.
  apply (@second_revision_reads_back epoch_Date (scripted []) fixturePodApp).
  vm_compute. reflexivity.
Defined.

(** X9: the retrieved-then-updated scenario of the unit tests: an App that
    get returned and update then refreshed is still the same object, now
    exactly the [App] of the update's response; the two requests are the GET
    for the id asked for and the PUT for the id the GET's response carried. *)
Theorem get_then_update `{JSDate} (c : HttpClient) (id : string) (params : json)
    (w w1 w2 : World) (l r : loc) :
  PartB.AppImpl_get c id w = (Resolved l, w1) ->
  PartB.App_update l params w1 = (Resolved r, w2) ->
  r = l
  /\ exists pod1 pod2,
       rjson (gateway c (sent w) (get_request_B id)) = Some pod1
       /\ rjson (gateway c (sent w1) (update_request_B (ToString (prop pod1 "id")) params))
          = Some pod2
       /\ heap w2 !! l = Some (PartB.App_constructor c pod2)
       /\ sent w2
          = (sent w ++ [get_request_B id;
                        update_request_B (ToString (prop pod1 "id")) params])%list.
Proof.
  intros Eget Eup.
  apply AppImpl_get_inv_B in Eget as (pod1 & Hj1 & Hl & _ & Hsent1).
  destruct (App_update_step_B _ _ _ _ _ _ _ Hl (read_constructor_client_B c pod1) Eup)
    as (-> & pod2 & Hj2 & Hl2 & Hsent2).
  rewrite read_constructor_id_B in Hj2, Hsent2.
  split; [reflexivity |]. exists pod1, pod2.
  split; [exact Hj1 |]. split; [exact Hj2 |]. split.
  - rewrite Hl2, assign_absorbs; [reflexivity |]. now rewrite !App_constructor_dom_B.
  - rewrite Hsent2, Hsent1, <- app_assoc. reflexivity.
Qed.

Lemma get_then_update_witness :
  let c := scripted [mkResponse 200 [] (Some fixturePodApp);
                     mkResponse 200 [] (Some updatedPodApp)] in
  let w1 := (@PartB.AppImpl_get epoch_Date c "a1" empty_World).2 in
  let w2 := (@PartB.App_update epoch_Date 0%nat (JObj ∅) w1).2 in
  0%nat = 0%nat
  /\ exists pod1 pod2,
       rjson (gateway c (sent empty_World) (get_request_B "a1")) = Some pod1
       /\ rjson (gateway c (sent w1)
                   (update_request_B (@ToString epoch_Date (prop pod1 "id")) (JObj ∅)))
          = Some pod2
       /\ heap w2 !! 0%nat = Some (@PartB.App_constructor epoch_Date c pod2)
       /\ sent w2
          = (sent empty_World
             ++ [get_request_B "a1";
                 update_request_B (@ToString epoch_Date (prop pod1 "id")) (JObj ∅)])%list.
Proof.
  intros c w1 w2.
  apply (@get_then_update epoch_Date c "a1" (JObj ∅) empty_World w1 w2 0%nat 0%nat).
  - by_running.
  - by_running.
Defined.

(** X10: the retrieved-then-deleted scenario of the unit tests: the delete
    is addressed to the id the GET's response carried, which need not be the
    id asked for; it changes no object, and resolves exactly when it is
    answered 204. *)
Theorem get_then_delete `{JSDate} (c : HttpClient) (id : string) (w w1 : World)
    (l : loc) :
  PartB.AppImpl_get c id w = (Resolved l, w1) ->
  exists pod,
    rjson (gateway c (sent w) (get_request_B id)) = Some pod
    /\ requests_of (PartB.App_delete l) w1
       = (sent w ++ [get_request_B id;
                     delete_request_B (ToString (prop pod "id"))])%list
    /\ heap (PartB.App_delete l w1).2 = heap w1
    /\ ((PartB.App_delete l w1).1 = Resolved tt
        <-> status (gateway c (sent w1) (delete_request_B (ToString (prop pod "id"))))
            = 204).
Proof.
  intros Eget.
  apply AppImpl_get_inv_B in Eget as (pod & Hj & Hl & _ & Hsent1).
  exists pod. split; [exact Hj |].
  unfold requests_of.
  rewrite (App_delete_step_B _ _ _ _ Hl (read_constructor_client_B c pod)).
  rewrite read_constructor_id_B, client_delete_outcome. cbn [fst snd heap sent].
  fold (delete_request_B (ToString (prop pod "id"))).
  split; [rewrite Hsent1, <- app_assoc; reflexivity |]. split; [reflexivity |].
  cbv zeta.
  destruct (Z.eqb_spec
    (status (gateway c (sent w1) (delete_request_B (ToString (prop pod "id"))))) 204).
  - tauto.
  - split; [discriminate | contradiction].
Qed.

Lemma get_then_delete_witness :
  let c := scripted [mkResponse 200 [] (Some fixturePodApp); mkResponse 204 [] None] in
  let w1 := (@PartB.AppImpl_get epoch_Date c "a0" empty_World).2 in
  exists pod,
    rjson (gateway c (sent empty_World) (get_request_B "a0")) = Some pod
    /\ requests_of (@PartB.App_delete epoch_Date 0%nat) w1
       = (sent empty_World
          ++ [get_request_B "a0";
              delete_request_B (@ToString epoch_Date (prop pod "id"))])%list
    /\ heap (@PartB.App_delete epoch_Date 0%nat w1).2 = heap w1
    /\ ((@PartB.App_delete epoch_Date 0%nat w1).1 = Resolved tt
        <-> status (gateway c (sent w1)
                      (delete_request_B (@ToString epoch_Date (prop pod "id")))) = 204).
Proof.
  intros c w1.
  apply (@get_then_delete epoch_Date c "a0" empty_World w1 0%nat).
  by_running.
Defined.

(** ** The two revisions side by side *)

(** X11: on the fields both revisions declare the two constructors agree;
    the first revision's [homepageUrl], [logoUrl], [allowUserUploads] and
    [trusted] are no property of an App of the second, and the second's
    [homepage] and [logo] none of an App of the first, whatever the snapshot
    holds under those names. *)
Theorem revisions_agree_on_shared_fields `{JSDate} (c : HttpClient) (pod : json)
    (k : string) :
  (k ∈ names PartA.PODApp -> k ∈ names PartB.PODApp ->
   PartA.App_constructor c pod !! k = PartB.App_constructor c pod !! k)
  /\ (k ∈ ["homepageUrl"; "logoUrl"; "allowUserUploads"; "trusted"] ->
      PartA.App_constructor c pod !! k = Some (prop pod k)
      /\ PartB.App_constructor c pod !! k = None)
  /\ (k ∈ ["homepage"; "logo"] ->
      PartB.App_constructor c pod !! k = Some (prop pod k)
      /\ PartA.App_constructor c pod !! k = None).
Proof.
  split; [| split].
  - intros HA HB.
    destruct (decide (k = "createdAt")) as [-> | Hne].
    + now rewrite App_constructor_createdAt, App_constructor_createdAt_B.
    + now rewrite App_constructor_lookup, App_constructor_lookup_B.
  - revert k. apply for_each.
    each_name ltac:(split; reflexivity).
  - revert k. apply for_each.
    each_name ltac:(split; reflexivity).
Qed.
